(** * Catalog browser core: seeded random, payload normalizers, chunk
    scanner, filter predicate and recommendation ranker.

    A shallow embedding of the search script (normalizeManifest,
    normalizeItem, matchItem, clearResults, loadNextChunk) and of the
    shorts script (hash32, mulberry32, shuffleInPlace, buildProfile,
    scoreItem, recommendOrder), followed by the properties proved of them.
    The shuffle is compared with the Fisher–Yates pass written out
    separately ([FisherYates]).
    Modelled besides: the payload obfuscation (xorInPlace), the input
    handlers of the search script (toggleTag, the debounce callback), the
    favorites and recently-viewed store of the search page (toggleFav,
    addRecent, escapeHtml), and the favorites store and the navigation
    links of the shorts script (toggleFav, buildLinksFromHeader).

    Conventions.
    - A JavaScript string is a [string]; each [ascii] stands for one UTF-16
      code unit below 256, so [charCodeAt] is the character's number.
    - 32-bit integers are [Z] with the wrap-around written out ([u32]); the
      signed and the unsigned reading of a 32-bit word agree modulo 2^32,
      and every operation below is taken modulo 2^32, so the unsigned
      reading is used throughout.
    - Scores and profile weights are IEEE binary64 numbers ([float]), the
      same format as a JavaScript number.  The numbers of the catalog data
      and the scanner's counters are integers ([Z]); they stay far below
      2^53, where a JavaScript number is exact.
    - A thrown exception is [None]. *)

From Stdlib Require Import ZArith Lia PrimFloat Uint63.
From Equations Require Import Equations.
From stdpp Require Import gmap strings list sorting pretty.

#[local] Set Warnings "-inexact-float,-clear-no-such-hyp".

Local Open Scope Z_scope.

(** ** 32-bit arithmetic and double rounding *)

Module Num.

Definition two32 : Z := 4294967296.

(** ToUint32 of an integer-valued number. *)
Definition u32 (x : Z) : Z := x mod two32.

(** [Math.imul]: the low 32 bits of the product. *)
Definition imul (a b : Z) : Z := u32 (a * b).

(** The binary64 value nearest to a non-negative integer [z] (ties to
    even): what the double-precision sum or product of two integers is
    when the exact result is [z].  Integers below 2^53 are exact. *)
Definition roundD (z : Z) : Z :=
  let e := Z.log2 z in
  if e <? 53 then z
  else
    let sh := e - 52 in
    let q := Z.shiftr z sh in
    let rem := z - Z.shiftl q sh in
    let half := Z.shiftl 1 (sh - 1) in
    if rem <? half then Z.shiftl q sh
    else if half <? rem then Z.shiftl (q + 1) sh
    else if Z.even q then Z.shiftl q sh
    else Z.shiftl (q + 1) sh.

(** [s.charCodeAt(i)] for every [i], in order. *)
Definition charCodes (s : string) : list Z :=
  (λ c, Z.of_N (Ascii.N_of_ascii c)) <$> String.list_ascii_of_string s.

End Num.

(** ** SeededRandom *)

Module Rng.
Import Num.

(** [hash32]: FNV-1a over the code units of [s]. *)
Definition hash32 (s : string) : Z :=
  u32 (fold_left (λ h c, imul (Z.lxor h c) 16777619) (charCodes s)
                 (u32 2166136261)).

(** The generator returned by [mulberry32 a] is a closure over the
    variable [t]; its state is the value of [t]. *)
Definition gen : Type := Z.

Definition mulberry32 (a : Z) : gen := u32 a.

(** One call of the closure.  [t += 0x6D2B79F5] is a double addition (the
    source does not truncate [t]); the bit operations read [t] through
    ToInt32.  The result is the numerator [n] of the returned number
    [n / 4294967296]. *)
Definition next (t : gen) : Z * gen :=
  let t := roundD (t + 1831565813) in
  let w := u32 t in
  let r := imul (Z.lxor w (Z.shiftr w 15)) (Z.lor 1 w) in
  let r := Z.lxor r (u32 (r + imul (Z.lxor r (Z.shiftr r 7)) (Z.lor 61 r))) in
  (Z.lxor r (Z.shiftr r 14), t).

(** Computations that draw from one generator. *)
Definition Rand (A : Type) : Type := gen → A * gen.

#[global] Instance rand_ret : MRet Rand := λ A a g, (a, g).
#[global] Instance rand_bind : MBind Rand :=
  λ A B f m g, let '(a, g') := m g in f a g'.

Definition rand : Rand Z := next.

(** The first [n] values of [next()]. *)
Fixpoint draws (n : nat) (g : gen) : list Z :=
  match n with
  | O => []
  | S n' => let '(r, g') := next g in r :: draws n' g'
  end.

(** [Math.floor(rand() * (i + 1))] for the draw with numerator [r]. *)
Definition pick (r : Z) (i : nat) : nat :=
  Z.to_nat (roundD (r * Z.of_nat (S i)) / two32).

(** [[arr[i], arr[j]] = [arr[j], arr[i]]] for indices inside the array. *)
Definition swap {A} (i j : nat) (arr : list A) : list A :=
  match arr !! i, arr !! j with
  | Some a, Some b => <[i := b]> (<[j := a]> arr)
  | _, _ => arr
  end.

(** The loop of [shuffleInPlace], entered with loop variable [i]. *)
Fixpoint shuffleFrom {A} (i : nat) (arr : list A) : Rand (list A) :=
  match i with
  | O => mret arr
  | S i' => r ← rand; shuffleFrom i' (swap i (pick r i) arr)
  end.

Definition shuffleInPlace {A} (arr : list A) : Rand (list A) :=
  shuffleFrom (length arr - 1)%nat arr.

(** The same loop run on a given sequence of draws. *)
Fixpoint shuffleWith {A} (i : nat) (rs : list Z) (arr : list A) : list A :=
  match i, rs with
  | S i', r :: rs' => shuffleWith i' rs' (swap i (pick r i) arr)
  | _, _ => arr
  end.

End Rng.

(** ** The shuffle as the specification words it *)

Module FisherYates.

(** The sequence with the elements at positions [i] and [j] exchanged. *)
Definition exchange {A} (i j : nat) (arr : list A) : list A :=
  imap (λ k x,
        if decide (k = i) then default x (arr !! j)
        else if decide (k = j) then default x (arr !! i)
        else x) arr.

(** [floor(u * (i + 1))] for the value [u = n / 2^32] of the generator:
    first in exact arithmetic, then with the product rounded to a double
    before the floor, as a program that computes in doubles draws it. *)
Definition exactIndex (n : Z) (i : nat) : nat :=
  Z.to_nat (n * (Z.of_nat i + 1) / 4294967296).

Definition doubleIndex (n : Z) (i : nat) : nat :=
  Z.to_nat (Num.roundD (n * (Z.of_nat i + 1)) / 4294967296).

(** The standard in-place pass: walking from position [i] down to
    position 1, draw [j] from the next value of the generator and
    exchange the elements at the position and at [j].  [ns] are the
    numerators of the values the generator returns, in order. *)
Fixpoint pass {A} (index : Z → nat → nat) (i : nat) (ns : list Z)
         (arr : list A) : list A :=
  match i, ns with
  | S i', n :: ns' => pass index i' ns' (exchange i (index n i) arr)
  | _, _ => arr
  end.

(** The full shuffle: the pass from the last position. *)
Definition shuffle {A} (index : Z → nat → nat) (arr : list A) (ns : list Z)
  : list A :=
  pass index (length arr - 1) ns arr.

End FisherYates.

(** ** JavaScript values decoded from JSON *)

Module Js.

(** A value as [JSON.parse] returns it, or as the normalizers build it.
    Numbers are the integers (the catalog's counts and ranks); an object
    is the list of its own properties, each key once. *)
#[local] Unset Elimination Schemes.
Inductive jsval : Type :=
| JUndef
| JNull
| JBool (b : bool)
| JNum (z : Z)
| JStr (s : string)
| JArr (l : list jsval)
| JObj (kv : list (string * jsval)).
#[local] Set Elimination Schemes.

(** ToBoolean. *)
Definition truthy (v : jsval) : bool :=
  match v with
  | JUndef | JNull => false
  | JBool b => b
  | JNum z => negb (z =? 0)
  | JStr s => negb (String.eqb s "")
  | JArr _ | JObj _ => true
  end.

(** [a || b]. *)
Definition or_else (a b : jsval) : jsval := if truthy a then a else b.

Fixpoint assoc (k : string) (kv : list (string * jsval)) : option jsval :=
  match kv with
  | [] => None
  | (k', v) :: kv' => if String.eqb k k' then Some v else assoc k kv'
  end.

(** [v.k] for the property names the scripts read (none of them is a
    built-in property of strings, arrays, numbers or booleans): a
    TypeError on undefined and null, [undefined] where the property is
    missing. *)
Definition get (v : jsval) (k : string) : option jsval :=
  match v with
  | JUndef | JNull => None
  | JObj kv => Some (default JUndef (assoc k kv))
  | _ => Some JUndef
  end.

Definition chars (s : string) : list jsval :=
  (λ c, JStr (String c "")) <$> String.list_ascii_of_string s.

(** [v[i]] for a literal index [i]. *)
Definition index (v : jsval) (i : nat) : option jsval :=
  match v with
  | JUndef | JNull => None
  | JArr l => Some (default JUndef (l !! i))
  | JStr s => Some (default JUndef (chars s !! i))
  | JObj kv => Some (default JUndef (assoc (pretty i) kv))
  | _ => Some JUndef
  end.

Definition isArray (v : jsval) : bool :=
  match v with JArr _ => true | _ => false end.

(** [v === s] for a string [s]. *)
Definition is_str (s : string) (v : jsval) : bool :=
  match v with JStr s' => String.eqb s' s | _ => false end.

(** The elements [...v] spreads; a TypeError when [v] is not iterable. *)
Definition spread (v : jsval) : option (list jsval) :=
  match v with
  | JArr l => Some l
  | JStr s => Some (chars s)
  | _ => None
  end.

Fixpoint sequence {A} (l : list (option A)) : option (list A) :=
  match l with
  | [] => Some []
  | o :: l' => x ← o; xs ← sequence l'; Some (x :: xs)
  end.

(** ToString.  An object of JSON data prints as [[object Object]] unless
    it has an own (hence not callable) [toString], which is a TypeError;
    an array joins its elements with commas, undefined and null printing
    as the empty string. *)
Fixpoint ToString (v : jsval) : option string :=
  match v with
  | JUndef => Some "undefined"
  | JNull => Some "null"
  | JBool b => Some (if b then "true" else "false")
  | JNum z => Some (pretty z)
  | JStr s => Some s
  | JArr l =>
      String.concat "," <$>
        sequence (List.map (λ x, match x with
                                 | JUndef | JNull => Some ""
                                 | _ => ToString x
                                 end) l)
  | JObj kv =>
      match assoc "toString" kv with
      | Some _ => None
      | None => Some "[object Object]"
      end
  end%string.

(** [v.toString()]: as ToString, except that undefined and null have no
    properties. *)
Definition toString (v : jsval) : option string :=
  match v with
  | JUndef | JNull => None
  | _ => ToString v
  end.

Definition lower (c : Ascii.ascii) : Ascii.ascii :=
  let n := Ascii.N_of_ascii c in
  if ((65 <=? n) && (n <=? 90) ||
      (192 <=? n) && (n <=? 222) && negb (n =? 215))%N
  then Ascii.ascii_of_N (n + 32) else c.

Fixpoint toLowerCase (s : string) : string :=
  match s with
  | EmptyString => EmptyString
  | String c s' => String (lower c) (toLowerCase s')
  end.

Definition is_space (c : Ascii.ascii) : bool :=
  let n := Ascii.N_of_ascii c in
  ((9 <=? n) && (n <=? 13) || (n =? 32) || (n =? 160))%N.

Fixpoint trimStart (s : string) : string :=
  match s with
  | String c s' => if is_space c then trimStart s' else s
  | EmptyString => EmptyString
  end.

Definition trim (s : string) : string :=
  String.rev (trimStart (String.rev (trimStart s))).

(** [hay.includes(q)]. *)
Fixpoint includes (hay q : string) : bool :=
  String.prefix q hay ||
  match hay with
  | EmptyString => false
  | String _ hay' => includes hay' q
  end.

End Js.

(** ** Catalog entries and their two wire encodings *)

Module Entry.
Import Js.

(** A catalog entry of the data model. *)
Record CatalogEntry := {
  id : string;
  title : string;
  release_date : string;
  hero_image : string;
  path : string;
  tags : list string;
  actresses : list string;
  maker : string;
  series : string;
  has_img : bool;
  img_count : Z;
  has_mov : bool;
  api_rank : option Z;
}.

Definition strings (l : list string) : jsval := JArr (JStr <$> l).

(** The values of the thirteen fields, in the order of the positional
    encoding; an entry without rank carries [null]. *)
Definition fields (e : CatalogEntry) : list jsval :=
  [JStr (id e); JStr (title e); JStr (release_date e); JStr (hero_image e);
   JStr (path e); strings (tags e); strings (actresses e); JStr (maker e);
   JStr (series e); JBool (has_img e); JNum (img_count e);
   JBool (has_mov e);
   match api_rank e with Some r => JNum r | None => JNull end].

Definition fieldNames : list string :=
  ["id"; "title"; "release_date"; "hero_image"; "path"; "tags";
   "actresses"; "maker"; "series"; "has_img"; "img_count"; "has_mov";
   "api_rank"].

(** The compact transport: the fixed-position array. *)
Definition positionalArrayForm (e : CatalogEntry) : jsval := JArr (fields e).

(** The object with named fields. *)
Definition objectForm (e : CatalogEntry) : jsval :=
  JObj (zip fieldNames (fields e)).

(** The values that stand for an absent element of the positional
    array, from position 5 on. *)
Definition tailDefaults : list (string * jsval) :=
  [("tags", JArr []); ("actresses", JArr []); ("maker", JStr "");
   ("series", JStr ""); ("has_img", JBool false); ("img_count", JNum 0);
   ("has_mov", JBool false); ("api_rank", JUndef)].

End Entry.

(** ** The search script: normalizers and filter predicate *)

Module Search.
Import Js.

(** [x => ({k0: x[0], k1: x[1]})]. *)
Definition pairToObject (k0 k1 : string) (x : jsval) : option jsval :=
  a ← index x 0; b ← index x 1; Some (JObj [(k0, a); (k1, b)]).

(** [(v || []).map(f)]: a TypeError when [v] is truthy and has no [map]. *)
Definition mapOrEmpty (f : jsval → option jsval) (v : jsval) : option jsval :=
  match or_else v (JArr []) with
  | JArr l => JArr <$> sequence (f <$> l)
  | _ => None
  end.

Definition isV3 (m : jsval) : bool :=
  match m with
  | JObj kv => match assoc "v" kv with Some (JNum 3) => true | _ => false end
  | _ => false
  end.

Definition normalizeManifest (m : jsval) : option jsval :=
  if isV3 m then
    ga ← get m "ga"; t ← get m "t"; cs ← get m "cs";
    c ← get m "c"; pt ← get m "pt"; mk ← get m "mk"; sr ← get m "sr";
    chunks ← mapOrEmpty (pairToObject "file" "count") c;
    popular ← mapOrEmpty (pairToObject "name" "count") pt;
    Some (JObj [("version", JNum 3);
                ("generated_at", ga);
                ("total", or_else t (JNum 0));
                ("chunk_size", or_else cs (JNum 0));
                ("chunks", chunks);
                ("popular_tags", popular);
                ("makers", or_else mk (JArr []));
                ("series", or_else sr (JArr []))])
  else Some m.

Section Runtime.

(** ToNumber on values that are neither numbers nor booleans (strings,
    arrays, objects) is the runtime's; it may throw. *)
Variable ToNumberOther : jsval → option jsval.

Definition Number (v : jsval) : option jsval :=
  match v with
  | JNum _ => Some v
  | JBool b => Some (JNum (if b then 1 else 0))
  | _ => ToNumberOther v
  end.

Definition normalizeItem (it : jsval) : option jsval :=
  match it with
  | JArr l =>
      let at_ (i : nat) := default JUndef (l !! i) in
      img_count ← Number (or_else (at_ 10%nat) (JNum 0));
      Some (JObj [("id", at_ 0%nat);
                  ("title", at_ 1%nat);
                  ("release_date", at_ 2%nat);
                  ("hero_image", at_ 3%nat);
                  ("path", at_ 4%nat);
                  ("tags", or_else (at_ 5%nat) (JArr []));
                  ("actresses", or_else (at_ 6%nat) (JArr []));
                  ("maker", or_else (at_ 7%nat) (JStr ""));
                  ("series", or_else (at_ 8%nat) (JStr ""));
                  ("has_img", JBool (truthy (at_ 9%nat)));
                  ("img_count", img_count);
                  ("has_mov", JBool (truthy (at_ 11%nat)));
                  ("api_rank", at_ 12%nat)])
  | _ => Some it
  end.

End Runtime.

(** The query state [state]; [tags] is the Set in insertion order. *)
Record QueryState := {
  q : string;
  maker : string;
  series : string;
  hasImg : bool;
  hasMov : bool;
  tags : list string;
}.

Definition nonempty (s : string) : bool := negb (String.eqb s "").

(** [norm(s)] for a string [s]. *)
Definition normStr (s : string) : string := trim (toLowerCase s).

(** [norm(v)]: [(v || "").toString().toLowerCase().trim()]. *)
Definition norm (v : jsval) : option string :=
  normStr <$> toString (or_else v (JStr "")).

(** The tag test of [matchItem]: every selected tag is an element of the
    entry's [tags] when that is an array, of the empty array otherwise. *)
Definition hasAllTags (selected : list string) (tagsv : jsval) : bool :=
  let tags := match tagsv with JArr l => l | _ => [] end in
  forallb (λ t, existsb (is_str t) tags) selected.

Definition matchItem (state : QueryState) (it : jsval) : option bool :=
  noImg ← (if hasImg state then negb ∘ truthy <$> get it "has_img" else Some false);
  if noImg : bool then Some false else
  noMov ← (if hasMov state then negb ∘ truthy <$> get it "has_mov" else Some false);
  if noMov : bool then Some false else
  badMaker ← (if nonempty (maker state)
              then negb ∘ is_str (maker state) <$> get it "maker" else Some false);
  if badMaker : bool then Some false else
  badSeries ← (if nonempty (series state)
               then negb ∘ is_str (series state) <$> get it "series" else Some false);
  if badSeries : bool then Some false else
  tagsOk ← (match tags state with
            | [] => Some true
            | _ => hasAllTags (tags state) <$> get it "tags"
            end);
  if negb tagsOk then Some false else
  let qn := normStr (q state) in
  if negb (nonempty qn) then Some true else
  title ← get it "title"; mk ← get it "maker"; sr ← get it "series";
  tg ← get it "tags"; tgs ← spread (or_else tg (JArr []));
  ac ← get it "actresses"; acs ← spread (or_else ac (JArr []));
  parts ← sequence (norm <$> title :: mk :: sr :: tgs ++ acs);
  Some (includes (String.concat " " parts) qn).

(** *** The manifest invariant *)

(** The manifest invariant: [chunks] is a non-empty array whenever
    [total] is a positive number. *)
Definition chunksInvariant (m : jsval) : Prop :=
  ∀ t, get m "total" = Some (JNum t) → 0 < t →
       ∃ x l, get m "chunks" = Some (JArr (x :: l)).

(** The same condition on the document [normalizeManifest] receives: on
    the fields [t] and [c] of the compact form, on [total] and [chunks]
    of a legacy document. *)
Definition rawInvariant (raw : jsval) : Prop :=
  if isV3 raw then
    ∀ t, get raw "t" = Some (JNum t) → 0 < t →
         ∃ x l, get raw "c" = Some (JArr (x :: l))
  else chunksInvariant raw.

Definition compactNoChunks : jsval :=
  JObj [("v", JNum 3); ("t", JNum 5); ("cs", JNum 2); ("c", JArr [])].

Definition legacyNoChunks : jsval :=
  JObj [("version", JNum 2); ("total", JNum 5); ("chunks", JArr [])].

(** *** The tag scenario *)

(** The entry and the query state of the scenario. *)
Definition scenarioEntry : jsval :=
  JObj [("tags", JArr [JStr "vr"; JStr "outdoor"])].

Definition scenarioState : QueryState :=
  {| q := ""; maker := ""; series := ""; hasImg := false; hasMov := false;
     tags := ["vr"; "indoor"] |}.

(** *** ChunkScanner *)

(** What the status line shows. *)
Inductive Status : Type :=
| StatusBlank
| StatusCounts (shown scanned : Z) (total : string)
| StatusLoadFailed.

(** How [await loadChunkData(chunk)] settles: the fetch, the payload
    decoding or the JSON parsing threw, or a value was decoded. *)
Inductive Outcome : Type :=
| Rejected
| Resolved (rawItems : jsval).

Section Scanner.

Variable ToNumberOther : jsval → option jsval.

(** The rendering layer: the card type and [createCard], which may
    throw on an entry it cannot render. *)
Variable Card : Type.
Variable createCard : jsval → option Card.

(** The module-level variables of the script, the children of the
    results element, the status line, and the chunk handed to the
    suspended call of [loadNextChunk], if there is one. *)
Record Scanner := {
  manifest : jsval;
  chunks : list jsval;
  chunkIndex : nat;
  loading : bool;
  scanned : Z;
  shown : Z;
  state : QueryState;
  results : list Card;
  status : Status;
  inflight : option jsval;
}.

(** [updateStatus]; the template literal applies ToString to
    [manifest.total], which may throw. *)
Definition updateStatus (s : Scanner) : option Scanner :=
  if negb (truthy (manifest s)) then Some s
  else
    total ← get (manifest s) "total" ≫= ToString;
    Some {| manifest := manifest s; chunks := chunks s;
            chunkIndex := chunkIndex s; loading := loading s;
            scanned := scanned s; shown := shown s; state := state s;
            results := results s;
            status := StatusCounts (shown s) (scanned s) total;
            inflight := inflight s |}.

(** [manifest.chunks.slice()], read afterwards through [length] and
    indexing only. *)
Definition sliceChunks (m : jsval) : option (list jsval) :=
  c ← get m "chunks";
  match c with
  | JArr l => Some l
  | JStr s => Some (chars s)
  | _ => None
  end.

(** [clearResults]: the state it leaves, also when [slice] or
    [updateStatus] throws part-way (the assignments before stay). *)
Definition clearResults (s : Scanner) : Scanner :=
  let cleared (cs : list jsval) :=
    {| manifest := manifest s; chunks := cs; chunkIndex := 0;
       loading := loading s; scanned := 0; shown := 0; state := state s;
       results := []; status := status s; inflight := inflight s |} in
  if truthy (manifest s) then
    match sliceChunks (manifest s) with
    | Some cs => default (cleared cs) (updateStatus (cleared cs))
    | None => cleared (chunks s)
    end
  else cleared [].

(** [loadNextChunk] up to its [await]: the three guards, then the
    guard flag is set, the chunk is read and the cursor advances. *)
Definition loadNextChunk_begin (s : Scanner) : Scanner :=
  if loading s then s
  else if negb (truthy (manifest s)) then s
  else
    match chunks s !! chunkIndex s with
    | None => s
    | Some chunk =>
        {| manifest := manifest s; chunks := chunks s;
           chunkIndex := S (chunkIndex s); loading := true;
           scanned := scanned s; shown := shown s; state := state s;
           results := results s; status := status s;
           inflight := Some chunk |}
    end.

(** [Array.isArray(rawItems) ? rawItems : []]. *)
Definition itemsOf (rawItems : jsval) : list jsval :=
  match rawItems with JArr l => l | _ => [] end.

(** The [for (const raw of items)] loop with the running [shown] and
    the document fragment; [None] for the fragment when an iteration
    threw. *)
Fixpoint scanItems (st : QueryState) (items : list jsval)
         (shown : Z) (frag : list Card) : Z * option (list Card) :=
  match items with
  | [] => (shown, Some frag)
  | raw :: rest =>
      match normalizeItem ToNumberOther raw with
      | None => (shown, None)
      | Some it =>
          match matchItem st it with
          | None => (shown, None)
          | Some false => scanItems st rest shown frag
          | Some true =>
              match createCard it with
              | None => (shown, None)
              | Some card => scanItems st rest (shown + 1) (frag ++ [card])
              end
          end
      end
  end.

(** The state when the suspended call ends: counters [sc] and [sh],
    result cards [rs], status [stt]; the [finally] block has cleared
    the guard. *)
Definition settled (s : Scanner) (sc sh : Z) (rs : list Card)
           (stt : Status) : Scanner :=
  {| manifest := manifest s; chunks := chunks s;
     chunkIndex := chunkIndex s; loading := false;
     scanned := sc; shown := sh; state := state s;
     results := rs; status := stt; inflight := None |}.

(** [loadNextChunk] from its [await] on: the [try] body, the [catch]
    block (any exception becomes the failure message) and [finally]. *)
Definition loadNextChunk_resume (o : Outcome) (s : Scanner) : Scanner :=
  match o with
  | Rejected => settled s (scanned s) (shown s) (results s) StatusLoadFailed
  | Resolved rawItems =>
      let items := itemsOf rawItems in
      let sc := scanned s + Z.of_nat (length items) in
      match scanItems (state s) items (shown s) [] with
      | (sh, None) => settled s sc sh (results s) StatusLoadFailed
      | (sh, Some frag) =>
          let s' := settled s sc sh (results s ++ frag) (status s) in
          default (settled s sc sh (results s ++ frag) StatusLoadFailed)
                  (updateStatus s')
      end
  end.

(** One call of [loadNextChunk] with nothing happening while it is
    suspended; [o] is how its fetch settles, if it issues one. *)
Definition loadNextChunk (o : Outcome) (s : Scanner) : Scanner :=
  if loading s then s
  else if negb (truthy (manifest s)) then s
  else
    match chunks s !! chunkIndex s with
    | None => s
    | Some _ => loadNextChunk_resume o (loadNextChunk_begin s)
    end.

(** The events of a session after the manifest is loaded: an input
    handler changes the query state, the debounce timer runs
    [clearResults], [loadNextChunk] is called (by the timer, by [init]
    or by the intersection observer), the pending fetch settles. *)
Inductive Event : Type :=
| EvQuery (qs : QueryState)
| EvReset
| EvLoadNext
| EvSettle (o : Outcome).

Definition step (s : Scanner) (e : Event) : option Scanner :=
  match e with
  | EvQuery qs =>
      Some {| manifest := manifest s; chunks := chunks s;
              chunkIndex := chunkIndex s; loading := loading s;
              scanned := scanned s; shown := shown s; state := qs;
              results := results s; status := status s;
              inflight := inflight s |}
  | EvReset => Some (clearResults s)
  | EvLoadNext => Some (loadNextChunk_begin s)
  | EvSettle o =>
      match inflight s with
      | Some _ => Some (loadNextChunk_resume o s)
      | None => None
      end
  end.

Fixpoint run (s : Scanner) (es : list Event) : option Scanner :=
  match es with
  | [] => Some s
  | e :: es' => s' ← step s e; run s' es'
  end.

(** The variables as the script initialises them, with [manifest]
    assigned by [init]. *)
Definition initial (m : jsval) : Scanner :=
  {| manifest := m; chunks := []; chunkIndex := 0; loading := false;
     scanned := 0; shown := 0;
     state := {| q := ""; maker := ""; series := ""; hasImg := false;
                 hasMov := false; tags := [] |};
     results := []; status := StatusBlank; inflight := None |}.

(** The entries decoded since the last reset, summed over a trace. *)
Definition decodedSinceReset (es : list Event) : Z :=
  fold_left (λ acc e,
             match e with
             | EvReset => 0
             | EvSettle (Resolved rawItems) =>
                 acc + Z.of_nat (length (itemsOf rawItems))
             | _ => acc
             end) es 0.

End Scanner.

Arguments manifest {Card} s.
Arguments chunks {Card} s.
Arguments chunkIndex {Card} s.
Arguments loading {Card} s.
Arguments scanned {Card} s.
Arguments shown {Card} s.
Arguments state {Card} s.
Arguments results {Card} s.
Arguments status {Card} s.
Arguments inflight {Card} s.
Arguments updateStatus {Card} s.
Arguments clearResults {Card} s.
Arguments loadNextChunk_begin {Card} s.
Arguments settled {Card} s sc sh rs stt.
Arguments scanItems ToNumberOther {Card} createCard st items shown frag.
Arguments loadNextChunk_resume ToNumberOther {Card} createCard o s.
Arguments loadNextChunk ToNumberOther {Card} createCard o s.
Arguments step ToNumberOther {Card} createCard s e.
Arguments run ToNumberOther {Card} createCard s es.

End Search.

(** ** The shorts script: preference profile and recommendation order *)

Module Shorts.
Import Num Rng.

(** What [readItemMeta] returns, and what the feature store keeps for a
    favorite. *)
Record ItemMeta := {
  tags : list string;
  actresses : list string;
  maker : string;
  series : string;
  label : string;
}.

(** A [.short-item] element, by the attributes the script reads:
    [data-id] (the empty string when absent) and the JSON payloads of
    [data-tags], [data-actresses] (arrays of strings), [data-maker],
    [data-series] and [data-label] (strings), as the page carries them. *)
Record ShortItem := {
  data_id : string;
  data_tags : list string;
  data_actresses : list string;
  data_maker : string;
  data_series : string;
  data_label : string;
}.

Definition nonempty (s : string) : bool := negb (String.eqb s "").

(** [readItemMeta]: [tags.map(String).filter(Boolean)] drops the empty
    strings. *)
Definition readItemMeta (item : ShortItem) : ItemMeta :=
  {| tags := List.filter nonempty (data_tags item);
     actresses := List.filter nonempty (data_actresses item);
     maker := data_maker item;
     series := data_series item;
     label := data_label item |}.

(** What a call reads from its environment: the clock as
    [new Date().toISOString()] prints it, the stored favorites array
    (after [map(String)]) and the stored feature object. *)
Record World := {
  now : string;
  favs : list string;
  features : gmap string ItemMeta;
}.

(** A [Set] of strings is the list of its elements in insertion order. *)
Definition setAdd (s : list string) (x : string) : list string :=
  if decide (x ∈ s) then s else s ++ [x].

Definition loadFavSet (w : World) : list string := foldl setAdd [] (favs w).

Definition loadFavFeatures (w : World) : gmap string ItemMeta := features w.

(** A stable sort: [before y x] holds when the comparator puts [y]
    strictly before [x].  For a consistent comparator every stable
    sorting algorithm returns this list. *)
Section Sort.
Context {A : Type} (before : A → A → bool).

Fixpoint insertSorted (x : A) (l : list A) : list A :=
  match l with
  | [] => [x]
  | y :: l' => if before y x then y :: insertSorted x l' else x :: l
  end.

Definition sortBy (l : list A) : list A := foldr insertSorted [] l.
End Sort.

(** [Array.from(favSet).sort().join(",")]: the default order compares
    code units. *)
Definition favKey (favSet : list string) : string :=
  String.concat "," (sortBy String.ltb favSet).

(** [new Date().toISOString().slice(0, 10)]. *)
Definition day (w : World) : string := String.substring 0 10 (now w).

Definition seed (w : World) : string :=
  (day w +:+ "|" +:+ favKey (loadFavSet w))%string.

(** *** Profile *)

Record Profile := {
  prof_tags : gmap string float;
  prof_actresses : gmap string float;
  prof_maker : gmap string float;
  prof_series : gmap string float;
  prof_label : gmap string float;
}.

(** [v || 0] for [v = map.get(k)]. *)
Definition orZero (o : option float) : float :=
  match o with
  | Some v => if (v =? 0)%float || is_nan v then 0%float else v
  | None => 0%float
  end.

(** [addCount(map, key, w)]. *)
Definition addCount (map : gmap string float) (key : string) (w : float)
  : gmap string float :=
  if nonempty key then <[key := (orZero (map !! key) + w)%float]> map
  else map.

Definition addAll (map : gmap string float) (keys : list string)
  : gmap string float :=
  foldl (λ m k, addCount m k 1%float) map keys.

(** The body of the loop of [buildProfile] for a favorite whose features
    are [f]. *)
Definition learn (prof : Profile) (f : ItemMeta) : Profile :=
  {| prof_tags := addAll (prof_tags prof) (tags f);
     prof_actresses := addAll (prof_actresses prof) (actresses f);
     prof_maker := addCount (prof_maker prof) (maker f) 1%float;
     prof_series := addCount (prof_series prof) (series f) 1%float;
     prof_label := addCount (prof_label prof) (label f) 1%float |}.

Definition emptyProfile : Profile :=
  {| prof_tags := ∅; prof_actresses := ∅; prof_maker := ∅;
     prof_series := ∅; prof_label := ∅ |}.

Definition buildProfile (w : World) (favSet : list string) : Profile :=
  foldl (λ prof id,
         match loadFavFeatures w !! id with
         | Some f => learn prof f
         | None => prof
         end) emptyProfile favSet.

Definition profileIsEmpty (prof : Profile) : bool :=
  bool_decide (size (prof_tags prof) = 0%nat) &&
  bool_decide (size (prof_actresses prof) = 0%nat) &&
  bool_decide (size (prof_maker prof) = 0%nat) &&
  bool_decide (size (prof_series prof) = 0%nat) &&
  bool_decide (size (prof_label prof) = 0%nat).

Definition scoreItem (meta : ItemMeta) (prof : Profile) : float :=
  let s := 0%float in
  let s := foldl (λ s t, s + orZero (prof_tags prof !! t) * 0.8)%float
                 s (tags meta) in
  let s := foldl (λ s a, s + orZero (prof_actresses prof !! a) * 2.2)%float
                 s (actresses meta) in
  let s := if nonempty (maker meta)
           then (s + orZero (prof_maker prof !! maker meta) * 1.1)%float
           else s in
  let s := if nonempty (series meta)
           then (s + orZero (prof_series prof !! series meta) * 1.8)%float
           else s in
  if nonempty (label meta)
  then (s + orZero (prof_label prof !! label meta) * 0.8)%float
  else s.

(** *** recommendOrder *)

(** The number [rand()] returns for the draw with numerator [n]. *)
Definition toFloat (n : Z) : float :=
  (of_uint63 (Uint63.of_Z n) / 4294967296)%float.

(** [Math.min] on two numbers that are not zeros of opposite sign. *)
Definition min (a b : float) : float :=
  if is_nan a || is_nan b then nan else if (b <? a)%float then b else a.

(** [Math.min(0.88, 0.25 + 0.06 * favCount)]. *)
Definition relRatio (favCount : nat) : float :=
  min 0.88 (0.25 + 0.06 * of_uint63 (Uint63.of_Z (Z.of_nat favCount)))%float.

(** The callback of [items.map] that scores one item. *)
Definition scoreOne (favSet : list string) (prof : Profile) (it : ShortItem)
  : Rand (ShortItem * float) :=
  let sc := scoreItem (readItemMeta it) prof in
  let sc := if decide (data_id it ∈ favSet) then (sc - 3.5)%float else sc in
  r ← rand;
  mret (it, (sc + toFloat r * 0.05)%float).

(** [items.map(f)] for a callback that draws random numbers. *)
Fixpoint mapRand {A B} (f : A → Rand B) (l : list A) : Rand (list B) :=
  match l with
  | [] => mret []
  | x :: l' => y ← f x; ys ← mapRand f l'; mret (y :: ys)
  end.

(** [(a, b) => b.sc - a.sc] is negative: [a] goes strictly before [b]. *)
Definition higherFirst (a b : ShortItem * float) : bool :=
  (b.2 - a.2 <? 0)%float.

(** [(ri < related.length) && (qi >= random.length || rand() < relRatio)];
    [rand] is called only when both cursors are inside. *)
Definition pickRelated (ratio : float) (related random : list ShortItem)
           (ri qi : nat) : Rand bool :=
  if decide (ri < length related)%nat then
    if decide (length random ≤ qi)%nat then mret true
    else r ← rand; mret (toFloat r <? ratio)%float
  else mret false.

(** The [while] loop of [recommendOrder], from the state [ri], [qi],
    [out], [used] and the generator. *)
Equations? interleave (n : nat) (ratio : float)
           (related random : list ShortItem) (ri qi : nat)
           (out : list ShortItem) (used : gset string) (g : gen)
  : list ShortItem
  by wf ((length related - ri) + (length random - qi))%nat lt :=
  interleave n ratio related random ri qi out used g
    with decide (length out < n)%nat => {
    | right _ := out
    | left _ with pickRelated ratio related random ri qi g => {
      | pair true g' with Logic.inspect (related !! ri) => {
        | exist _ None _ := out
        | exist _ (Some cand) E :=
            if decide (data_id cand ∈ used)
            then interleave n ratio related random (S ri) qi out used g'
            else interleave n ratio related random (S ri) qi
                   (out ++ [cand]) ({[data_id cand]} ∪ used) g' }
      | pair false g' with Logic.inspect (random !! qi) => {
        | exist _ None _ := out
        | exist _ (Some cand) E :=
            if decide (data_id cand ∈ used)
            then interleave n ratio related random ri (S qi) out used g'
            else interleave n ratio related random ri (S qi)
                   (out ++ [cand]) ({[data_id cand]} ∪ used) g' } } }.
Proof.
  all: apply lookup_lt_Some in E; lia.
Qed.

Definition recommendOrder (w : World) (items : list ShortItem)
  : list ShortItem :=
  let favSet := loadFavSet w in
  let favCount := length favSet in
  let g := mulberry32 (hash32 (seed w)) in
  if decide (favCount = 0%nat) then (shuffleInPlace items g).1
  else
    let prof := buildProfile w favSet in
    if profileIsEmpty prof then (shuffleInPlace items g).1
    else
      let '(scored, g) := mapRand (scoreOne favSet prof) items g in
      let related := (sortBy higherFirst scored).*1 in
      let '(random, g) := shuffleInPlace items g in
      interleave (length items) (relRatio favCount) related random
                 0 0 [] ∅ g.

(** The state of the loop: [out] holds items of the input with distinct
    ids, [used] is the set of their ids, and every candidate already
    passed in either list has its id in [used]. *)
Record loopInv (items related random : list ShortItem) (ri qi : nat)
       (out : list ShortItem) (used : gset string) : Prop := {
  inv_sub : ∀ x, x ∈ out → x ∈ items;
  inv_nodup : NoDup (data_id <$> out);
  inv_used : ∀ i, i ∈ used ↔ i ∈ data_id <$> out;
  inv_related : ∀ x, x ∈ take ri related → data_id x ∈ used;
  inv_random : ∀ x, x ∈ take qi random → data_id x ∈ used;
}.

End Shorts.

(** ** Sample data *)

Module Sample.
Import Js.

(** A runtime whose ToNumber is never reached by the data below. *)
Definition toNumberOther (v : jsval) : option jsval := None.

(** A rendering layer whose card is the entry's title. *)
Definition createCard (it : jsval) : option string :=
  get it "title" ≫= ToString.

(** The compact manifest of the two-chunk scenario. *)
Definition rawManifest : jsval :=
  JObj [("v", JNum 3); ("ga", JStr "2026-11-03"); ("t", JNum 5);
        ("cs", JNum 3);
        ("c", JArr [JArr [JStr "a.dat"; JNum 3];
                    JArr [JStr "b.json"; JNum 2]])].

Definition manifest : jsval :=
  default JNull (Search.normalizeManifest rawManifest).

Definition positional (id title : string) : jsval :=
  JArr [JStr id; JStr title; JStr "2026-01-01"; JStr ""; JStr "works/x/";
        JArr [JStr "vr"]; JArr []; JStr "M"; JStr ""; JNum 1; JNum 2;
        JBool false].

Definition named (id title : string) : jsval :=
  JObj [("id", JStr id); ("title", JStr title); ("tags", JArr []);
        ("has_img", JBool false)].

Definition chunkA : jsval :=
  JArr [positional "a1" "One"; positional "a2" "Two"; positional "a3" "Three"].

Definition chunkB : jsval :=
  JArr [named "b1" "Four"; named "b2" "Five"].

(** [init] after the manifest is loaded, both chunks fetched in turn. *)
Definition twoChunks : list Search.Event :=
  [Search.EvReset;
   Search.EvLoadNext; Search.EvSettle (Search.Resolved chunkA);
   Search.EvLoadNext; Search.EvSettle (Search.Resolved chunkB)].

(** The first fetch fails. *)
Definition failedFetch : list Search.Event :=
  [Search.EvReset; Search.EvLoadNext; Search.EvSettle Search.Rejected].

(** An entry of the catalog, and the first five elements of its
    positional array. *)
Definition entry : Entry.CatalogEntry :=
  {| Entry.id := "a1"; Entry.title := "One";
     Entry.release_date := "2026-01-01 00:00:00"; Entry.hero_image := "";
     Entry.path := "works/a1/"; Entry.tags := ["vr"; "outdoor"];
     Entry.actresses := ["P"]; Entry.maker := "M"; Entry.series := "";
     Entry.has_img := true; Entry.img_count := 0; Entry.has_mov := false;
     Entry.api_rank := None |}.

Definition shortArray : list jsval := take 5 (Entry.fields entry).

(** A chunk whose payload is an object. *)
Definition notAnArray : jsval := JObj [("error", JStr "not found")].

Definition short (id : string) (performers : list string) : Shorts.ShortItem :=
  {| Shorts.data_id := id; Shorts.data_tags := ["vr"];
     Shorts.data_actresses := performers; Shorts.data_maker := "M";
     Shorts.data_series := ""; Shorts.data_label := "" |}.

Definition feed : list Shorts.ShortItem :=
  [short "a" []; short "b" ["P"]; short "c" []; short "d" []; short "w1" ["P"]].

(** The feed with the id [a] on two items. *)
Definition feedTwice : list Shorts.ShortItem :=
  [short "a" []; short "a" ["P"]; short "c" []].

Definition learned : gmap string Shorts.ItemMeta :=
  {[ "w1" := {| Shorts.tags := []; Shorts.actresses := ["P"];
                Shorts.maker := ""; Shorts.series := ""; Shorts.label := "" |} ]}.

Definition noFavorites : Shorts.World :=
  {| Shorts.now := "2026-11-03T08:15:00.000Z"; Shorts.favs := [];
     Shorts.features := learned |}.

Definition morning : Shorts.World :=
  {| Shorts.now := "2026-11-03T08:15:00.000Z"; Shorts.favs := ["w1"; "w2"];
     Shorts.features := learned |}.

(** Later the same day, the same favorites stored in another order. *)
Definition evening : Shorts.World :=
  {| Shorts.now := "2026-11-03T21:40:10.500Z";
     Shorts.favs := ["w2"; "w1"; "w2"];
     Shorts.features := learned |}.

(** One favorite, for which no features are stored. *)
Definition unlearned : Shorts.World :=
  {| Shorts.now := "2026-11-03T08:15:00.000Z"; Shorts.favs := ["w2"];
     Shorts.features := learned |}.

End Sample.

(** ** The payload obfuscation *)

Module Codec.

(** [XOR_KEY]: the UTF-8 bytes of the key string, all of them ASCII. *)
Definition XOR_KEY : list Z := Num.charCodes "ReviewCatalog-v1".

(** The loop of [xorInPlace] from index [i] on; a [Uint8Array] keeps the
    low eight bits of what is stored in it. *)
Fixpoint xorFrom (i : nat) (bytes : list Z) : list Z :=
  match bytes with
  | [] => []
  | b :: rest =>
      Z.lxor b (default 0 (XOR_KEY !! (i mod length XOR_KEY)%nat)) mod 256
        :: xorFrom (S i) rest
  end.

Definition xorInPlace (bytes : list Z) : list Z := xorFrom 0 bytes.

(** The elements of a [Uint8Array]. *)
Definition isByte (b : Z) : Prop := 0 ≤ b < 256.

End Codec.

(** ** The search script: input handlers *)

Module SearchUi.
Import Js Search.

(** The Set operation of [toggleTag]: delete the tag when present, add
    it at the end otherwise. *)
Definition toggleTag (name : string) (state : QueryState) : QueryState :=
  {| q := q state; maker := maker state; series := series state;
     hasImg := hasImg state; hasMov := hasMov state;
     tags := if decide (name ∈ tags state)
             then List.filter (λ t, negb (String.eqb t name)) (tags state)
             else tags state ++ [name] |}.

(** The query state the clear button leaves. *)
Definition clearedState : QueryState :=
  {| q := ""; maker := ""; series := ""; hasImg := false; hasMov := false;
     tags := [] |}.

(** Whether [clearResults] ends by throwing: [manifest.chunks] has no
    [slice], or [updateStatus] throws. *)
Definition clearResultsThrows {Card} (s : Scanner Card) : bool :=
  truthy (manifest s) &&
  match sliceChunks (manifest s) with
  | None => true
  | Some _ =>
      match updateStatus (clearResults s) with
      | None => true
      | Some _ => false
      end
  end.

(** The callback of the debounce timer, up to the [await] of the call it
    makes: [clearResults(); loadNextChunk();]. *)
Definition onDebounce {Card} (s : Scanner Card) : Scanner Card :=
  if clearResultsThrows s then clearResults s
  else loadNextChunk_begin (clearResults s).

(** [n] calls of [loadNextChunk] in a row, each running to its end. *)
Definition loadAll ToNumberOther {Card} (createCard : jsval → option Card)
           (os : list Outcome) (s : Scanner Card) : Scanner Card :=
  foldl (λ s o, loadNextChunk ToNumberOther createCard o s) s os.

(** The number of entries in the payloads [os]. *)
Definition decoded (os : list Outcome) : Z :=
  foldr (λ o acc,
         match o with
         | Resolved rawItems => Z.of_nat (length (itemsOf rawItems)) + acc
         | Rejected => acc
         end) 0 os.

(** A text of white space only. *)
Definition blank (s : string) : Prop :=
  Forall (λ c, is_space c = true) (String.list_ascii_of_string s).

End SearchUi.

(** ** The search script: favorites and recently viewed *)

Module Personal.
Import Js.

Definition MAX_RECENT : nat := 30.

Inductive Key : Type := KEY_FAVS | KEY_FAV_META | KEY_RECENT.

(** For each key, what [JSON.parse(localStorage.getItem(key))] returns;
    [None] when nothing (or the empty string) is stored there or the text
    does not parse. *)
Record Storage := {
  favs : option jsval;
  favMeta : option jsval;
  recent : option jsval;
}.

Definition slot (st : Storage) (key : Key) : option jsval :=
  match key with
  | KEY_FAVS => favs st
  | KEY_FAV_META => favMeta st
  | KEY_RECENT => recent st
  end.

Definition loadJSON (st : Storage) (key : Key) (fallback : jsval) : jsval :=
  default fallback (slot st key).

(** [saveJSON]: [ok] tells whether [setItem] succeeds; when it throws the
    exception is swallowed and nothing is stored.  The values saved below
    are JSON data, which [JSON.parse] gives back as they were. *)
Definition saveJSON (ok : bool) (key : Key) (value : jsval) (st : Storage)
  : Storage :=
  if ok then
    match key with
    | KEY_FAVS =>
        {| favs := Some value; favMeta := favMeta st; recent := recent st |}
    | KEY_FAV_META =>
        {| favs := favs st; favMeta := Some value; recent := recent st |}
    | KEY_RECENT =>
        {| favs := favs st; favMeta := favMeta st; recent := Some value |}
    end
  else st.

Definition getFavList (st : Storage) : list jsval :=
  match loadJSON st KEY_FAVS (JArr []) with
  | JArr l => l
  | _ => []
  end.

(** [v && typeof v === "object" ? v : {}]. *)
Definition getFavMeta (st : Storage) : jsval :=
  match loadJSON st KEY_FAV_META (JObj []) with
  | JArr l => JArr l
  | JObj kv => JObj kv
  | _ => JObj []
  end.

(** [list.includes(id)] for a string [id]. *)
Definition includesId (id : string) (list : list jsval) : bool :=
  existsb (is_str id) list.

Definition isFav (st : Storage) (id : string) : bool :=
  includesId id (getFavList st).

(** What [readMetaFromBtn] returns, and what the detail page passes to
    [addRecent]. *)
Record Meta := {
  id : string;
  title : string;
  hero : string;
  path : string;
  maker : string;
  release : string;
  hasImg : bool;
  hasMov : bool;
}.

Definition metaProps (meta : Meta) : list (string * jsval) :=
  [("id", JStr (id meta)); ("title", JStr (title meta));
   ("hero", JStr (hero meta)); ("path", JStr (path meta));
   ("maker", JStr (maker meta)); ("release", JStr (release meta));
   ("hasImg", JBool (hasImg meta)); ("hasMov", JBool (hasMov meta))].

Definition nonempty (s : string) : bool := negb (String.eqb s "").

(** Whether [metaMap[id] = meta] throws, for the object or array
    [getFavMeta] returns and an object [meta]: assigning an object to the
    [length] of an array is a RangeError; every other assignment to an
    object or an array of JSON data succeeds. *)
Definition assignThrows (metaMap : jsval) (id : string) : bool :=
  isArray metaMap && String.eqb id "length".

Section Assign.

(** [metaMap[id] = meta], when it does not throw, followed by the JSON
    round trip of [saveJSON]: the object the next [getFavMeta] reads.
    Property assignment is the runtime's. *)
Variable assign : jsval → string → jsval → jsval.

(** [upsertFav]: the state it leaves, also when the assignment throws
    (nothing is saved then). *)
Definition upsertFav (ok1 ok2 : bool) (meta : Meta) (st : Storage) : Storage :=
  let list := getFavList st in
  let metaMap := getFavMeta st in
  let list := if includesId (id meta) list then list
              else JStr (id meta) :: list in
  if assignThrows metaMap (id meta) then st
  else
    let metaMap := assign metaMap (id meta) (JObj (metaProps meta)) in
    saveJSON ok2 KEY_FAV_META metaMap (saveJSON ok1 KEY_FAVS (JArr list) st).

(** [getFavList().filter((x) => x !== id)], saved. *)
Definition removeFav (ok : bool) (id : string) (st : Storage) : Storage :=
  saveJSON ok KEY_FAVS
    (JArr (List.filter (λ x, negb (is_str id x)) (getFavList st))) st.

(** [toggleFav(meta)]; [meta] is [None] for [null]. *)
Definition toggleFav (ok1 ok2 : bool) (meta : option Meta) (st : Storage)
  : Storage :=
  match meta with
  | None => st
  | Some m =>
      if negb (nonempty (id m)) then st
      else if isFav st (id m) then removeFav ok1 (id m) st
      else upsertFav ok1 ok2 m st
  end.

End Assign.

(** [x && x.id !== id]: the test [addRecent] filters the stored items
    with. *)
Definition otherItem (id : string) (x : jsval) : bool :=
  truthy x &&
  match get x "id" with
  | Some v => negb (is_str id v)
  | None => false
  end.

(** [addRecent(meta)] at the time [now] of [Date.now()]. *)
Definition addRecent (ok : bool) (now : Z) (meta : option Meta) (st : Storage)
  : Storage :=
  match meta with
  | None => st
  | Some m =>
      if negb (nonempty (id m)) then st
      else
        let arr := match loadJSON st KEY_RECENT (JArr []) with
                   | JArr l => l
                   | _ => []
                   end in
        let item := JObj (metaProps m ++ [("ts", JNum now)]) in
        let filtered := List.filter (otherItem (id m)) arr in
        let trimmed := take MAX_RECENT (item :: filtered) in
        saveJSON ok KEY_RECENT (JArr trimmed) st
  end.

(** The stored list as [addRecent] and [renderPersonal] read it. *)
Definition recentList (st : Storage) : list jsval :=
  match loadJSON st KEY_RECENT (JArr []) with
  | JArr l => l
  | _ => []
  end.

(** [s.replaceAll(c, r)] for a pattern of one character. *)
Fixpoint replaceAll (c : Ascii.ascii) (r : string) (s : string) : string :=
  match s with
  | EmptyString => EmptyString
  | String a s' =>
      if Ascii.eqb a c then (r +:+ replaceAll c r s')%string
      else String a (replaceAll c r s')
  end.

(** The characters [&], [<], [>], the double quote and the apostrophe. *)
Definition chAmp : Ascii.ascii := Ascii.ascii_of_nat 38.
Definition chLt : Ascii.ascii := Ascii.ascii_of_nat 60.
Definition chGt : Ascii.ascii := Ascii.ascii_of_nat 62.
Definition chQuot : Ascii.ascii := Ascii.ascii_of_nat 34.
Definition chApos : Ascii.ascii := Ascii.ascii_of_nat 39.

Definition escapeHtml (s : string) : string :=
  replaceAll chApos "&#39;"
    (replaceAll chQuot "&quot;"
       (replaceAll chGt "&gt;"
          (replaceAll chLt "&lt;"
             (replaceAll chAmp "&amp;" s)))).

(** The characters with a meaning in markup. *)
Definition isMarkup (a : Ascii.ascii) : bool :=
  Ascii.eqb a chLt || Ascii.eqb a chGt || Ascii.eqb a chQuot || Ascii.eqb a chApos.

End Personal.

(** ** The shorts script: the favorites store *)

Module ShortsStore.
Import Shorts.

(** [saveFavSet] and [saveFavFeatures]: [ok] tells whether [setItem]
    succeeds; a failure is swallowed. *)
Definition saveFavSet (ok : bool) (set : list string) (w : World) : World :=
  if ok then {| now := now w; favs := set; features := features w |} else w.

Definition saveFavFeatures (ok : bool) (obj : gmap string ItemMeta)
           (w : World) : World :=
  if ok then {| now := now w; favs := favs w; features := obj |} else w.

(** [feats[id] = meta] as the stored object shows it: the name
    [__proto__], unless it is an own property, reaches the prototype and
    stores nothing. *)
Definition setFeature (feats : gmap string ItemMeta) (id : string)
           (meta : ItemMeta) : gmap string ItemMeta :=
  if String.eqb id "__proto__" && bool_decide (feats !! id = None) then feats
  else <[id := meta]> feats.

(** [isFav(workId)]. *)
Definition isFav (w : World) (workId : string) : bool :=
  nonempty workId && bool_decide (workId ∈ loadFavSet w).

(** [learnFavFeatures(id, item)]; [item] is [None] for a missing element. *)
Definition learnFavFeatures (ok : bool) (id : string)
           (item : option ShortItem) (w : World) : World :=
  match item with
  | Some it =>
      if nonempty id
      then saveFavFeatures ok
             (setFeature (loadFavFeatures w) id (readItemMeta it)) w
      else w
  | None => w
  end.

Definition forgetFavFeatures (ok : bool) (id : string) (w : World) : World :=
  if nonempty id then saveFavFeatures ok (delete id (loadFavFeatures w)) w
  else w.

(** [toggleFav(workId, item)]: the value returned and the store left;
    [okF] and [okS] tell whether the write of the features and the write
    of the set succeed. *)
Definition toggleFav (okF okS : bool) (workId : string)
           (item : option ShortItem) (w : World) : bool * World :=
  if negb (nonempty workId) then (false, w)
  else
    let set := loadFavSet w in
    if decide (workId ∈ set) then
      let set := List.filter (λ x, negb (String.eqb x workId)) set in
      (false, saveFavSet okS set (forgetFavFeatures okF workId w))
    else
      let set := set ++ [workId] in
      (true, saveFavSet okS set (learnFavFeatures okF workId item w)).

(** The Set [toggleFav] saves, from the Set it loaded. *)
Definition toggled (id : string) (set : list string) : list string :=
  if decide (id ∈ set)
  then List.filter (λ x, negb (String.eqb x id)) set
  else set ++ [id].

(** Stored features that add nothing to a profile: no tag, performer,
    maker, series or label other than the empty string. *)
Definition featureless (f : ItemMeta) : Prop :=
  Forall (λ t, t = "") (tags f) ∧ Forall (λ a, a = "") (actresses f) ∧
  maker f = "" ∧ series f = "" ∧ label f = "".

(** A profile with its five maps empty. *)
Definition profEmpty (prof : Profile) : Prop :=
  prof_tags prof = ∅ ∧ prof_actresses prof = ∅ ∧ prof_maker prof = ∅ ∧
  prof_series prof = ∅ ∧ prof_label prof = ∅.

(** A list [out] of items of [items] that has every id of [items] and is
    no longer. *)
Definition covers (items out : list ShortItem) : Prop :=
  (∀ x, x ∈ out → x ∈ items) ∧
  (∀ x, x ∈ items → data_id x ∈ data_id <$> out) ∧
  (length out ≤ length items)%nat.

(** Every id with learned features is a favorite. *)
Definition learnedAreFavorites (w : World) : Prop :=
  ∀ id, is_Some (features w !! id) → id ∈ favs w.

End ShortsStore.

(** ** The shorts script: navigation links *)

Module ShortsNav.

(** An anchor of the site header: its [href] attribute, if it has one,
    and its text content. *)
Record Anchor := {
  hrefAttr : option string;
  textContent : string;
}.

Record Link := {
  href : string;
  text : string;
}.

Definition nonempty (s : string) : bool := negb (String.eqb s "").

(** The links read off the header, before the duplicates are dropped. *)
Definition headerLinks (anchors : list Anchor) : list Link :=
  List.filter (λ x, nonempty (href x) && nonempty (text x))
    ((λ a, {| href := default "" (hrefAttr a);
              text := Js.trim (textContent a) |}) <$> anchors).

(** The loop over [links] with the set [seen] and the array [uniq]. *)
Fixpoint uniqLoop (links : list Link) (seen : gset string) (uniq : list Link)
  : list Link :=
  match links with
  | [] => uniq
  | l :: rest =>
      if decide (href l ∈ seen) then uniqLoop rest seen uniq
      else uniqLoop rest ({[href l]} ∪ seen) (uniq ++ [l])
  end.

Definition buildLinksFromHeader (anchors : list Anchor) : list Link :=
  uniqLoop (headerLinks anchors) ∅ [].

End ShortsNav.

(** * Properties *)

(** ** SeededRandom *)

Module RngFacts.
Import Num Rng.

Lemma u32_range x : 0 ≤ u32 x < two32.
Proof. unfold u32, two32. apply Z.mod_pos_bound. lia. Qed.

Lemma lxor_range a b : 0 ≤ a < two32 → 0 ≤ b < two32 → 0 ≤ Z.lxor a b < two32.
Proof.
  unfold two32. intros [Ha Ha'] [Hb Hb'].
  assert (0 ≤ Z.lxor a b) as Hnn by (apply Z.lxor_nonneg; tauto).
  split; [done|].
  destruct (decide (Z.lxor a b = 0)) as [->|Hne]; [done|].
  assert (0 < Z.lxor a b) as Hpos by lia.
  change 4294967296 with (2 ^ 32) in *. apply Z.log2_lt_pow2; [done|].
  eapply Z.le_lt_trans; [by apply Z.log2_lxor|].
  apply Z.max_lub_lt.
  - destruct (decide (a = 0)) as [->|]; [done|]. apply Z.log2_lt_pow2; lia.
  - destruct (decide (b = 0)) as [->|]; [done|]. apply Z.log2_lt_pow2; lia.
Qed.

Lemma shiftr_range a n : 0 ≤ n → 0 ≤ a < two32 → 0 ≤ Z.shiftr a n < two32.
Proof.
  intros Hn [Ha Ha']. rewrite Z.shiftr_div_pow2 by done. split.
  - apply Z.div_pos; lia.
  - eapply Z.le_lt_trans; [|exact Ha'].
    apply Z.div_le_upper_bound; [lia|]. nia.
Qed.

(** [next()] returns a number in [[0, 1)]: its numerator is a 32-bit word. *)
Lemma next_range g : 0 ≤ (next g).1 < two32.
Proof.
  unfold next, imul; cbn [fst].
  apply lxor_range; [|apply shiftr_range; [lia|]];
    apply lxor_range; apply u32_range.
Qed.

(** Rounding to binary64 keeps the scaled draw below [2^32 * m]: the
    index [Math.floor(rand() * m)] is below [m]. *)
Lemma roundD_scaled r m :
  0 ≤ r < two32 → 0 < m < two32 → 0 ≤ roundD (r * m) < two32 * m.
Proof.
  unfold two32. intros Hr Hm. set (x := r * m).
  assert (0 ≤ x ≤ 4294967296 * m - m) as Hx by (unfold x; nia).
  unfold roundD. destruct (Z.ltb_spec (Z.log2 x) 53) as [|He]; [lia|].
  assert (0 < x) as Hpos.
  { destruct (decide (x = 0)) as [E|]; [rewrite E in He; simpl in He|]; lia. }
  pose proof (Z.log2_spec x Hpos) as [Hlo Hhi].
  assert (Z.log2 x < 64) as He'.
  { apply Z.log2_lt_pow2; [done|]. nia. }
  set (sh := Z.log2 x - 52) in *.
  assert (1 ≤ sh ≤ 11) as Hsh by lia.
  replace (Z.log2 x) with (sh + 52) in Hlo by lia.
  replace (Z.succ (Z.log2 x)) with (sh + 53) in Hhi by lia.
  rewrite !Z.shiftl_mul_pow2, Z.shiftr_div_pow2 by lia.
  pose proof (Z.div_mod x (2 ^ sh) ltac:(lia)) as Hdm.
  pose proof (Z.mod_pos_bound x (2 ^ sh) ltac:(lia)) as Hmod.
  set (qq := x / 2 ^ sh) in *. set (rr := x mod 2 ^ sh) in *.
  clearbody qq rr x sh.
  assert (sh = 1 ∨ sh = 2 ∨ sh = 3 ∨ sh = 4 ∨ sh = 5 ∨ sh = 6 ∨ sh = 7 ∨
          sh = 8 ∨ sh = 9 ∨ sh = 10 ∨ sh = 11) as Hcases by lia.
  repeat destruct Hcases as [->|Hcases]; [..|subst sh];
    cbn in *; repeat case_match; lia.
Qed.

Lemma pick_le r i :
  0 ≤ r < two32 → Z.of_nat (S i) < two32 → (pick r i ≤ i)%nat.
Proof.
  intros Hr Hi. unfold pick.
  pose proof (roundD_scaled r (Z.of_nat (S i)) Hr ltac:(lia)) as [H0 H1].
  assert (roundD (r * Z.of_nat (S i)) / two32 < Z.of_nat (S i)).
  { apply Z.div_lt_upper_bound; unfold two32 in *; lia. }
  assert (0 ≤ roundD (r * Z.of_nat (S i)) / two32)
    by (apply Z.div_pos; unfold two32; lia).
  lia.
Qed.

Lemma swap_Permutation {A} i j (arr : list A) : swap i j arr ≡ₚ arr.
Proof.
  unfold swap.
  destruct (arr !! i) as [a|] eqn:Hi; [|done].
  destruct (arr !! j) as [b|] eqn:Hj; [|done].
  by apply Permutation_insert_swap.
Qed.

Lemma shuffleFrom_Permutation {A} i (arr : list A) g :
  (shuffleFrom i arr g).1 ≡ₚ arr.
Proof.
  revert arr g. induction i as [|i IH]; intros arr g; [done|].
  cbn [shuffleFrom]. unfold mbind, rand_bind, rand.
  destruct (next g) as [r g'].
  rewrite IH. apply swap_Permutation.
Qed.

Lemma shuffleInPlace_Permutation {A} (arr : list A) g :
  (shuffleInPlace arr g).1 ≡ₚ arr.
Proof. apply shuffleFrom_Permutation. Qed.

(** Inside the array every swap finds both of its elements: with
    [i < arr.length < 2^32] the drawn index is at most [i]. *)
Lemma swap_in_range {A} (arr : list A) i r :
  (i < length arr)%nat → Z.of_nat (length arr) < two32 → 0 ≤ r < two32 →
  is_Some (arr !! i) ∧ is_Some (arr !! pick r i).
Proof.
  intros Hi Hlen Hr. split; apply lookup_lt_is_Some; [done|].
  pose proof (pick_le r i Hr ltac:(lia)). lia.
Qed.

Example hash32_empty : hash32 "" = 2166136261.
Proof. reflexivity. Qed.

Example hash32_a : hash32 "a" = 3826002220.
Proof. reflexivity. Qed.

(** The shuffle is a function of the values drawn. *)
Lemma shuffleFrom_draws {A} i (arr : list A) g :
  (shuffleFrom i arr g).1 = shuffleWith i (draws i g) arr.
Proof.
  revert arr g. induction i as [|i IH]; intros arr g; [done|].
  cbn [shuffleFrom draws]. unfold mbind, rand_bind, rand.
  destruct (next g) as [r g']. cbn [shuffleWith]. apply IH.
Qed.

(** C4. Two generators made from the same seed string return the same
    values of [next()], call after call, and shuffle a given sequence the
    same way, the shuffle being a function of the values drawn; and the
    sequence [shuffleInPlace] returns is a permutation of the one it was
    given. *)
Theorem seeded_random_reproducible {A} (s1 s2 : string) (arr : list A) :
  s1 = s2 →
  (∀ n, draws n (mulberry32 (hash32 s1)) = draws n (mulberry32 (hash32 s2))) ∧
  shuffleInPlace arr (mulberry32 (hash32 s1))
    = shuffleInPlace arr (mulberry32 (hash32 s2)) ∧
  (shuffleInPlace arr (mulberry32 (hash32 s1))).1
    = shuffleWith (length arr - 1)
        (draws (length arr - 1) (mulberry32 (hash32 s1))) arr ∧
  (shuffleInPlace arr (mulberry32 (hash32 s1))).1 ≡ₚ arr.
Proof.
  intros ->.
  split_and!; [done|done|apply shuffleFrom_draws|apply shuffleInPlace_Permutation].
Qed.

Lemma seeded_random_reproducible_witness :
  (∀ n, draws n (mulberry32 (hash32 "2026-11-03|w1"))
        = draws n (mulberry32 (hash32 "2026-11-03|w1"))) ∧
  shuffleInPlace [1; 2; 3; 4; 5] (mulberry32 (hash32 "2026-11-03|w1"))
    = shuffleInPlace [1; 2; 3; 4; 5] (mulberry32 (hash32 "2026-11-03|w1")) ∧
  (shuffleInPlace [1; 2; 3; 4; 5] (mulberry32 (hash32 "2026-11-03|w1"))).1
    = shuffleWith (length [1; 2; 3; 4; 5] - 1)
        (draws (length [1; 2; 3; 4; 5] - 1)
               (mulberry32 (hash32 "2026-11-03|w1"))) [1; 2; 3; 4; 5] ∧
  (shuffleInPlace [1; 2; 3; 4; 5] (mulberry32 (hash32 "2026-11-03|w1"))).1
    ≡ₚ [1; 2; 3; 4; 5].
Proof.
  exact (seeded_random_reproducible "2026-11-03|w1" "2026-11-03|w1"
           [1; 2; 3; 4; 5] eq_refl).
Defined.

End RngFacts.

(** ** Normalizers and filter predicate *)

Module SearchFacts.
Import Js Search.

Lemma or_else_str s : or_else (JStr s) (JStr "") = JStr s.
Proof.
  unfold or_else; cbn. destruct (String.eqb_spec s ""); by subst.
Qed.

Lemma or_else_num z : or_else (JNum z) (JNum 0) = JNum z.
Proof.
  unfold or_else; cbn. destruct (Z.eqb_spec z 0); by subst.
Qed.

Lemma normalizeItem_positional T (e : Entry.CatalogEntry) :
  normalizeItem T (Entry.positionalArrayForm e) = Some (Entry.objectForm e).
Proof.
  unfold normalizeItem, Entry.positionalArrayForm, Entry.objectForm,
    Entry.fields, Entry.strings; cbn.
  rewrite !or_else_str, or_else_num; cbn.
  by destruct (Entry.has_img e), (Entry.has_mov e).
Qed.

Lemma normalizeItem_object T (e : Entry.CatalogEntry) :
  normalizeItem T (Entry.objectForm e) = Some (Entry.objectForm e).
Proof. reflexivity. Qed.

Lemma normalizeItem_tail T (l : list jsval) (o : jsval) n key d :
  normalizeItem T (JArr l) = Some o →
  Entry.tailDefaults !! n = Some (key, d) →
  (length l ≤ 5 + n)%nat →
  get o key = Some d.
Proof.
  unfold normalizeItem. intros Ho Hn Hlen.
  assert (∀ i, (5 + n ≤ i)%nat → l !! i = None) as Habs
    by (intros i Hi; apply lookup_ge_None; lia).
  destruct (Number T _) as [c|] eqn:Hc; simplify_eq/=.
  destruct n as [|[|[|[|[|[|[|[|n]]]]]]]]; simplify_eq/=;
    repeat (rewrite Habs in * by lia); by simplify_eq/=.
Qed.

(** C5. Normalizing the positional array of an entry and normalizing
    its object with named fields give the same entry, the object with
    the thirteen named fields; and a position the array does not reach
    (from position 5 on) is normalized to its default: the empty array
    for tags and actresses, the empty string for maker and series,
    false for has_img and has_mov, zero for img_count, undefined for
    api_rank. *)
Theorem normalizeItem_roundtrip T (e : Entry.CatalogEntry) :
  normalizeItem T (Entry.positionalArrayForm e)
    = normalizeItem T (Entry.objectForm e) ∧
  normalizeItem T (Entry.objectForm e) = Some (Entry.objectForm e) ∧
  ∀ (l : list jsval) (o : jsval) n key d,
    normalizeItem T (JArr l) = Some o →
    Entry.tailDefaults !! n = Some (key, d) →
    (length l ≤ 5 + n)%nat →
    get o key = Some d.
Proof.
  split_and!.
  - by rewrite normalizeItem_positional, normalizeItem_object.
  - apply normalizeItem_object.
  - apply normalizeItem_tail.
Qed.

(** The compact array may carry the two flags as 1 and 0. *)
Lemma normalizeItem_numeric_flags T (e : Entry.CatalogEntry) :
  let flag (b : bool) := JNum (if b then 1 else 0) in
  normalizeItem T
    (JArr (<[9%nat := flag (Entry.has_img e)]>
             (<[11%nat := flag (Entry.has_mov e)]> (Entry.fields e))))
    = Some (Entry.objectForm e).
Proof.
  unfold normalizeItem, Entry.objectForm, Entry.fields, Entry.strings; cbn.
  rewrite !or_else_str, or_else_num; cbn.
  by destruct (Entry.has_img e), (Entry.has_mov e).
Qed.

Lemma normalizeItem_roundtrip_witness :
  normalizeItem Sample.toNumberOther (Entry.positionalArrayForm Sample.entry)
    = normalizeItem Sample.toNumberOther (Entry.objectForm Sample.entry) ∧
  ∃ o, normalizeItem Sample.toNumberOther (JArr Sample.shortArray) = Some o ∧
       get o "maker" = Some (JStr "") ∧ get o "img_count" = Some (JNum 0).
Proof.
  destruct (normalizeItem_roundtrip Sample.toNumberOther Sample.entry)
    as (Hsame & _ & Htail).
  split; [exact Hsame|].
  eexists. split; [reflexivity|]. split.
  - apply (Htail Sample.shortArray _ 2%nat); [reflexivity|reflexivity|cbn; lia].
  - apply (Htail Sample.shortArray _ 5%nat); [reflexivity|reflexivity|cbn; lia].
Defined.

(** *** FilterPredicate *)

Lemma hasAllTags_spec selected tagsv :
  hasAllTags selected tagsv = true →
  ∀ t, t ∈ selected →
    ∃ l, tagsv = JArr l ∧ JStr t ∈ l.
Proof.
  unfold hasAllTags. intros Hall t Ht.
  rewrite forallb_forall in Hall.
  apply list_elem_of_In, Hall, existsb_exists in Ht as (v & Hv & Heq).
  destruct tagsv as [| | | | |l|]; try done.
  exists l; split; [done|].
  destruct v as [| | | |s'| |]; try done.
  cbn in Heq. apply String.eqb_eq in Heq as ->. by apply list_elem_of_In.
Qed.

Lemma matchItem_tags state it :
  tags state ≠ [] →
  matchItem state it = Some true →
  ∃ tagsv, get it "tags" = Some tagsv ∧ hasAllTags (tags state) tagsv = true.
Proof.
  unfold matchItem. intros Hne Hm.
  repeat (apply bind_Some in Hm as ([] & _ & Hm); [done|]).
  apply bind_Some in Hm as (ok & Hok & Hm).
  destruct (tags state) as [|t0 sel] eqn:Hsel; [done|].
  apply fmap_Some in Hok as (tagsv & Hget & ->).
  destruct (hasAllTags (t0 :: sel) tagsv) eqn:Hall; [|done].
  eauto.
Qed.

(** C8. With a non-empty set of selected tags, [matchItem] accepts an
    entry only if the entry's [tags] is an array that contains every
    selected tag; the entry with tags vr and outdoor is rejected when vr
    and indoor are selected. *)
Theorem matchItem_selected_tags_all :
  (∀ state it,
     tags state ≠ [] →
     matchItem state it = Some true →
     ∃ l, get it "tags" = Some (JArr l) ∧ ∀ t, t ∈ tags state → JStr t ∈ l) ∧
  matchItem scenarioState scenarioEntry = Some false.
Proof.
  split; [|reflexivity].
  intros state it Hne Hm.
  destruct (matchItem_tags state it Hne Hm) as (tagsv & Hget & Hall).
  destruct (tags state) as [|t0 sel] eqn:Hsel; [done|].
  destruct (hasAllTags_spec _ _ Hall t0) as (l & -> & _); [left|].
  exists l; split; [done|]. intros t Ht.
  destruct (hasAllTags_spec _ _ Hall t Ht) as (l' & ? & ?). by simplify_eq.
Qed.

Lemma matchItem_selected_tags_witness :
  ∃ l, get (JObj [("tags", JArr [JStr "vr"; JStr "outdoor"])]) "tags"
         = Some (JArr l) ∧
       ∀ t, t ∈ ["vr"] → JStr t ∈ l.
Proof.
  apply (proj1 matchItem_selected_tags_all
           {| q := ""; maker := ""; series := ""; hasImg := false;
              hasMov := false; tags := ["vr"] |}
           (JObj [("tags", JArr [JStr "vr"; JStr "outdoor"])])).
  - discriminate.
  - reflexivity.
Defined.

(** *** CatalogManifest *)

Example normalizeManifest_compactNoChunks :
  normalizeManifest compactNoChunks =
    Some (JObj [("version", JNum 3); ("generated_at", JUndef);
                ("total", JNum 5); ("chunk_size", JNum 2);
                ("chunks", JArr []); ("popular_tags", JArr []);
                ("makers", JArr []); ("series", JArr [])]).
Proof. reflexivity. Qed.

(** C9 as stated fails: a compact document that declares five entries
    and lists no chunk is normalized to a manifest with [total = 5] and
    no chunk, and a legacy document of that kind passes through
    unchanged. *)
Lemma normalizeManifest_invariant_fails :
  ¬ (∀ raw m, normalizeManifest raw = Some m → chunksInvariant m).
Proof.
  intros H.
  destruct (H compactNoChunks _ eq_refl 5 eq_refl ltac:(lia)) as (x & l & Hc).
  discriminate Hc.
Qed.

Lemma normalizeManifest_legacy_invariant_fails :
  normalizeManifest legacyNoChunks = Some legacyNoChunks ∧
  ¬ chunksInvariant legacyNoChunks.
Proof.
  split; [reflexivity|]. intros H.
  destruct (H 5 eq_refl ltac:(lia)) as (x & l & Hc). discriminate Hc.
Qed.

Lemma sequence_cons_inv {A} (o : option A) l ys :
  sequence (o :: l) = Some ys → ∃ y k, ys = y :: k.
Proof.
  cbn. intros H.
  apply bind_Some in H as (x & _ & H).
  apply bind_Some in H as (xs & _ & H). simplify_eq. eauto.
Qed.

Lemma mapOrEmpty_cons f x l :
  ∀ v, mapOrEmpty f (JArr (x :: l)) = Some v → ∃ y k, v = JArr (y :: k).
Proof.
  unfold mapOrEmpty, or_else. cbn [truthy]. intros v Hv.
  apply fmap_Some in Hv as (ys & Hys & ->).
  rewrite fmap_cons in Hys.
  apply sequence_cons_inv in Hys as (y & k & ->). eauto.
Qed.

(** C9, amended. [normalizeManifest] keeps the invariant it is given: if
    the document lists at least one chunk whenever it declares a
    positive total, then the manifest returned has a non-empty [chunks]
    whenever its [total] is positive, for the compact form and for a
    legacy document passed through. *)
Theorem normalizeManifest_keeps_invariant raw m :
  normalizeManifest raw = Some m →
  rawInvariant raw →
  chunksInvariant m.
Proof.
  unfold normalizeManifest, rawInvariant.
  destruct (isV3 raw) eqn:Hv3; [|by intros [= <-]].
  destruct raw as [| | | | | |kv]; try done. cbn [get].
  intros Hm Hraw. simplify_option_eq.
  intros t Ht Hpos. cbn in Ht.
  destruct (assoc "t" kv) as [tv|] eqn:Htv; cbn in *.
  - assert (tv = JNum t) as ->.
    { unfold or_else in Ht. destruct (truthy tv); simplify_eq; [done|lia]. }
    destruct (Hraw t eq_refl Hpos) as (x & l & Hc). simplify_eq.
    rewrite Hc in *.
    match goal with Hmap : mapOrEmpty _ (JArr (x :: l)) = Some _ |- _ =>
      apply mapOrEmpty_cons in Hmap as (y & k & ->) end.
    by exists y, k.
  - unfold or_else in Ht; cbn in Ht. simplify_eq. lia.
Qed.

Lemma normalizeManifest_keeps_invariant_witness :
  chunksInvariant
    (JObj [("version", JNum 3); ("generated_at", JUndef);
           ("total", JNum 5); ("chunk_size", JNum 3);
           ("chunks", JArr [JObj [("file", JStr "a.dat"); ("count", JNum 3)];
                            JObj [("file", JStr "b.json"); ("count", JNum 2)]]);
           ("popular_tags", JArr []);
           ("makers", JArr []); ("series", JArr [])]).
Proof.
  apply (normalizeManifest_keeps_invariant
           (JObj [("v", JNum 3); ("t", JNum 5); ("cs", JNum 3);
                  ("c", JArr [JArr [JStr "a.dat"; JNum 3];
                              JArr [JStr "b.json"; JNum 2]])])).
  - reflexivity.
  - intros t Ht Hpos. eexists _, _. reflexivity.
Defined.

End SearchFacts.

(** ** ChunkScanner *)

Module ScannerFacts.
Import Js Search.

Section Scanner.

Variable ToNumberOther : jsval → option jsval.
Variable Card : Type.
Variable createCard : jsval → option Card.

Abbreviation scanItems := (scanItems ToNumberOther createCard).
Abbreviation loadNextChunk_resume :=
  (loadNextChunk_resume ToNumberOther createCard).
Abbreviation loadNextChunk := (loadNextChunk ToNumberOther createCard).
Abbreviation step := (step ToNumberOther createCard).
Abbreviation run := (run ToNumberOther createCard).

Implicit Types (s : Scanner Card) (o : Outcome) (e : Event).

(** [updateStatus] writes the status line and nothing else. *)
Lemma updateStatus_fields s s' :
  updateStatus s = Some s' →
  manifest s' = manifest s ∧ chunks s' = chunks s ∧
  chunkIndex s' = chunkIndex s ∧ loading s' = loading s ∧
  scanned s' = scanned s ∧ shown s' = shown s ∧ state s' = state s ∧
  results s' = results s ∧ inflight s' = inflight s.
Proof.
  unfold updateStatus. destruct (negb _); [by intros [= <-]|].
  intros H. apply bind_Some in H as (total & _ & [= <-]). done.
Qed.

(** [clearResults] zeroes both counters, whether or not it throws. *)
Lemma clearResults_counters s :
  scanned (clearResults s) = 0 ∧ shown (clearResults s) = 0 ∧
  chunkIndex (clearResults s) = 0%nat ∧
  loading (clearResults s) = loading s ∧
  inflight (clearResults s) = inflight s.
Proof.
  unfold clearResults. destruct (truthy (manifest s)); [|done].
  destruct (sliceChunks (manifest s)) as [cs|]; [|done].
  match goal with |- context [updateStatus ?c] =>
    destruct (updateStatus c) as [s'|] eqn:Hu; cbn [default]; [|done]
  end.
  apply updateStatus_fields in Hu. cbn in *. intuition congruence.
Qed.

Lemma loadNextChunk_begin_counters s :
  scanned (loadNextChunk_begin s) = scanned s ∧
  shown (loadNextChunk_begin s) = shown s ∧
  results (loadNextChunk_begin s) = results s.
Proof.
  unfold loadNextChunk_begin. by repeat case_match.
Qed.

(** The loop adds one to [shown] for a match and never more than one
    per item. *)
Lemma scanItems_shown st items sh frag :
  sh ≤ (scanItems st items sh frag).1 ≤ sh + Z.of_nat (length items).
Proof.
  revert sh frag. induction items as [|raw rest IH]; intros sh frag.
  - cbn. lia.
  - cbn [Search.scanItems length].
    repeat case_match; cbn [fst]; try lia.
    + specialize (IH (sh + 1) (frag ++ [c])). lia.
    + specialize (IH sh frag). lia.
Qed.

Lemma settled_after_update s sc sh rs stt s' :
  updateStatus (settled s sc sh rs stt) = Some s' →
  scanned s' = sc ∧ shown s' = sh ∧ results s' = rs ∧
  loading s' = false ∧ inflight s' = None ∧
  chunkIndex s' = chunkIndex s.
Proof. intros H%updateStatus_fields. cbn in H. intuition congruence. Qed.

(** What the resumed call leaves in the counters and the guard. *)
Lemma loadNextChunk_resume_fields o s :
  let s' := loadNextChunk_resume o s in
  scanned s' = scanned s +
               match o with
               | Rejected => 0
               | Resolved rawItems => Z.of_nat (length (itemsOf rawItems))
               end ∧
  shown s' =
    match o with
    | Rejected => shown s
    | Resolved rawItems =>
        (scanItems (state s) (itemsOf rawItems) (shown s) []).1
    end ∧
  loading s' = false ∧ inflight s' = None ∧
  chunkIndex s' = chunkIndex s.
Proof.
  unfold Search.loadNextChunk_resume.
  destruct o as [|rawItems]; cbn zeta; [cbn; split_and!; done || lia|].
  destruct (scanItems _ _ _ _) as [sh [frag|]] eqn:Hscan; cbn [fst];
    [|done].
  match goal with |- context [updateStatus ?c] =>
    destruct (updateStatus c) as [s'|] eqn:Hu; cbn [default]; [|done]
  end.
  apply settled_after_update in Hu. cbn zeta. intuition congruence.
Qed.

(** One event changes [scanned] as the trace sum says, and keeps
    [0 ≤ shown ≤ scanned]. *)
Lemma step_counters s e s' :
  step s e = Some s' →
  scanned s' = match e with
               | EvReset => 0
               | EvSettle (Resolved rawItems) =>
                   scanned s + Z.of_nat (length (itemsOf rawItems))
               | _ => scanned s
               end ∧
  (0 ≤ shown s ≤ scanned s → 0 ≤ shown s' ≤ scanned s').
Proof.
  destruct e as [qs| | |o]; cbn [Search.step].
  - intros [= <-]. done.
  - intros [= <-]. destruct (clearResults_counters s) as (-> & -> & _). lia.
  - intros [= <-].
    destruct (loadNextChunk_begin_counters s) as (-> & -> & _). done.
  - destruct (inflight s); [|done]. intros [= <-].
    destruct (loadNextChunk_resume_fields o s) as (-> & -> & _).
    destruct o as [|rawItems]; [split; lia|].
    pose proof (scanItems_shown (state s) (itemsOf rawItems) (shown s) []).
    split; lia.
Qed.

(** Between resets an event never lowers a counter. *)
Lemma step_monotone s e s' :
  step s e = Some s' → e ≠ EvReset →
  scanned s ≤ scanned s' ∧ shown s ≤ shown s'.
Proof.
  destruct e as [qs| | |o]; cbn [Search.step]; [|done|..].
  - by intros [= <-].
  - intros [= <-] _.
    destruct (loadNextChunk_begin_counters s) as (-> & -> & _). done.
  - destruct (inflight s); [|done]. intros [= <-] _.
    destruct (loadNextChunk_resume_fields o s) as (-> & -> & _).
    destruct o as [|rawItems]; [lia|].
    pose proof (scanItems_shown (state s) (itemsOf rawItems) (shown s) []).
    lia.
Qed.

Lemma run_counters es : ∀ s s',
  run s es = Some s' →
  0 ≤ shown s ≤ scanned s →
  scanned s' =
    fold_left (λ acc e,
               match e with
               | EvReset => 0
               | EvSettle (Resolved rawItems) =>
                   acc + Z.of_nat (length (itemsOf rawItems))
               | _ => acc
               end) es (scanned s) ∧
  0 ≤ shown s' ≤ scanned s'.
Proof.
  induction es as [|e es IH]; intros s s' Hrun Hinv; cbn in Hrun.
  - by simplify_eq.
  - apply bind_Some in Hrun as (s1 & Hstep & Hrun).
    destruct (step_counters _ _ _ Hstep) as [Hsc Hsh].
    destruct (IH _ _ Hrun (Hsh Hinv)) as [-> ?]. split; [|done].
    cbn [fold_left]. rewrite Hsc. by destruct e as [| | |[|]].
Qed.

(** C6. In every state reached from the initial one by input changes,
    resets, calls of [loadNextChunk] and settled fetches (rejected ones
    included), [scanned] is the sum of the lengths of the entry lists
    decoded since the last reset and [shown] is at most [scanned]; and no
    event other than a reset lowers [scanned] or [shown]. *)
Theorem scanner_counters m es s :
  run (initial Card m) es = Some s →
  scanned s = decodedSinceReset es ∧
  0 ≤ shown s ≤ scanned s ∧
  ∀ e s', step s e = Some s' → e ≠ EvReset →
          scanned s ≤ scanned s' ∧ shown s ≤ shown s'.
Proof.
  intros Hrun.
  destruct (run_counters es _ _ Hrun) as [Hsc Hsh]; [cbn; lia|].
  split_and!; [exact Hsc|lia|lia|apply step_monotone].
Qed.

(** With the cursor at the end of the queue [loadNextChunk] does nothing. *)
Lemma loadNextChunk_exhausted o s :
  (length (chunks s) ≤ chunkIndex s)%nat → loadNextChunk o s = s.
Proof.
  intros Hend%lookup_ge_None. unfold Search.loadNextChunk.
  rewrite Hend. by repeat case_match.
Qed.

(** The guard is set exactly while a call is suspended at its [await]. *)
Lemma step_guard s e s' :
  step s e = Some s' →
  (loading s = true ↔ is_Some (inflight s)) →
  (loading s' = true ↔ is_Some (inflight s')).
Proof.
  destruct e as [qs| | |o]; cbn [Search.step].
  - by intros [= <-].
  - intros [= <-]. by destruct (clearResults_counters s) as (_ & _ & _ & -> & ->).
  - intros [= <-] Hinv. unfold loadNextChunk_begin.
    destruct (loading s) eqn:Hl; [by rewrite Hl|].
    destruct (negb _); [by rewrite Hl|].
    destruct (chunks s !! chunkIndex s); [|by rewrite Hl]. cbn. split; eauto.
  - destruct (inflight s); [|done]. intros [= <-] _.
    destruct (loadNextChunk_resume_fields o s) as (_ & _ & -> & -> & _).
    split; [done|]. by intros [? ?].
Qed.

Lemma run_guard es : ∀ s s',
  run s es = Some s' →
  (loading s = true ↔ is_Some (inflight s)) →
  (loading s' = true ↔ is_Some (inflight s')).
Proof.
  induction es as [|e es IH]; intros s s' Hrun Hinv; cbn in Hrun.
  - by simplify_eq.
  - apply bind_Some in Hrun as (s1 & Hstep & Hrun).
    eauto using step_guard.
Qed.

(** C7. In every reachable state the guard is set only while a call of
    [loadNextChunk] is suspended at its fetch; when that call ends,
    however the fetch settled and whatever the processing threw, the
    guard is false; and a call made while no other call is suspended
    leaves the guard false when it ends. *)
Theorem loading_guard_released m es s :
  run (initial Card m) es = Some s →
  (loading s = true ↔ is_Some (inflight s)) ∧
  (∀ o s', step s (EvSettle o) = Some s' → loading s' = false) ∧
  (∀ o, loading s = false → loading (loadNextChunk o s) = false).
Proof.
  intros Hrun. split_and!.
  - eapply run_guard; [exact Hrun|]. cbn. split; [done|]. by intros [? ?].
  - intros o s'. cbn [Search.step]. destruct (inflight s); [|done].
    intros [= <-]. by destruct (loadNextChunk_resume_fields o s) as (_ & _ & -> & _).
  - intros o Hl. unfold Search.loadNextChunk. rewrite Hl.
    destruct (negb _); [done|].
    destruct (chunks s !! chunkIndex s); [|done].
    by destruct (loadNextChunk_resume_fields o (loadNextChunk_begin s))
      as (_ & _ & -> & _).
Qed.

(** *** Payloads that are not arrays *)

Lemma itemsOf_not_array v : isArray v = false → itemsOf v = [].
Proof. by destruct v. Qed.

Lemma loadNextChunk_begin_advances s chunk :
  loading s = false → truthy (manifest s) = true →
  chunks s !! chunkIndex s = Some chunk →
  loadNextChunk_begin s =
    {| manifest := manifest s; chunks := chunks s;
       chunkIndex := S (chunkIndex s); loading := true;
       scanned := scanned s; shown := shown s; state := state s;
       results := results s; status := status s;
       inflight := Some chunk |}.
Proof.
  intros Hl Hm Hc. unfold loadNextChunk_begin. by rewrite Hl, Hm, Hc.
Qed.

Lemma loadNextChunk_resume_empty s :
  let s' := loadNextChunk_resume (Resolved (JArr [])) s in
  scanned s' = scanned s ∧ shown s' = shown s ∧ results s' = results s ∧
  chunkIndex s' = chunkIndex s ∧ loading s' = false.
Proof.
  unfold Search.loadNextChunk_resume. cbn.
  rewrite Z.add_0_r, app_nil_r.
  match goal with |- context [updateStatus ?c] =>
    destruct (updateStatus c) as [s'|] eqn:Hu; cbn [default]; [|done]
  end.
  apply settled_after_update in Hu. cbn zeta. intuition congruence.
Qed.

(** C10. A decoded payload that is not an array is processed exactly as
    the empty array: the loop runs over no item and throws nothing, the
    counters and the results are unchanged, the guard is cleared, and the
    cursor, advanced before the fetch, stays one past the chunk. *)
Theorem non_array_payload_is_empty_chunk s v :
  isArray v = false →
  loadNextChunk_resume (Resolved v) s
    = loadNextChunk_resume (Resolved (JArr [])) s ∧
  scanItems (state s) (itemsOf v) (shown s) [] = (shown s, Some []) ∧
  (let s' := loadNextChunk_resume (Resolved v) s in
   scanned s' = scanned s ∧ shown s' = shown s ∧ results s' = results s ∧
   chunkIndex s' = chunkIndex s ∧ loading s' = false) ∧
  (loading s = false → truthy (manifest s) = true →
   is_Some (chunks s !! chunkIndex s) →
   let s' := loadNextChunk (Resolved v) s in
   scanned s' = scanned s ∧ shown s' = shown s ∧ results s' = results s ∧
   chunkIndex s' = S (chunkIndex s) ∧ loading s' = false).
Proof.
  intros Hv.
  assert (loadNextChunk_resume (Resolved v)
          = loadNextChunk_resume (Resolved (JArr []))) as Heq.
  { unfold Search.loadNextChunk_resume. by rewrite (itemsOf_not_array v Hv). }
  split_and!.
  - by rewrite Heq.
  - by rewrite (itemsOf_not_array v Hv).
  - rewrite Heq. apply loadNextChunk_resume_empty.
  - intros Hl Hm [chunk Hc]. unfold Search.loadNextChunk.
    rewrite Hl, Hm, Hc, (loadNextChunk_begin_advances s chunk Hl Hm Hc).
    cbn [negb]. rewrite Heq.
    match goal with |- context [loadNextChunk_resume _ ?c] =>
      pose proof (loadNextChunk_resume_empty c) as Hres end.
    exact Hres.
Qed.

End Scanner.

(** The two-chunk scenario: after both chunks, five entries scanned and
    five shown. *)
Lemma scanner_counters_witness :
  ∃ s, run Sample.toNumberOther Sample.createCard
           (initial string Sample.manifest) Sample.twoChunks = Some s ∧
       scanned s = 5 ∧ shown s = 5 ∧
       scanned s = decodedSinceReset Sample.twoChunks ∧
       0 ≤ shown s ≤ scanned s ∧
       ∀ e s', step Sample.toNumberOther Sample.createCard s e = Some s' →
               e ≠ EvReset → scanned s ≤ scanned s' ∧ shown s ≤ shown s'.
Proof.
  eexists. split; [vm_compute; reflexivity|].
  split; [reflexivity|]. split; [reflexivity|].
  apply (scanner_counters Sample.toNumberOther string Sample.createCard
           Sample.manifest Sample.twoChunks).
  vm_compute; reflexivity.
Defined.

(** A failed first fetch: the guard is clear afterwards. *)
Lemma loading_guard_released_witness :
  ∃ s, run Sample.toNumberOther Sample.createCard
           (initial string Sample.manifest) Sample.failedFetch = Some s ∧
       status s = StatusLoadFailed ∧
       (loading s = true ↔ is_Some (inflight s)) ∧
       (∀ o s', step Sample.toNumberOther Sample.createCard s (EvSettle o)
                  = Some s' → loading s' = false) ∧
       (∀ o, loading s = false →
             loading (loadNextChunk Sample.toNumberOther Sample.createCard o s)
               = false).
Proof.
  eexists. split; [vm_compute; reflexivity|]. split; [reflexivity|].
  apply (loading_guard_released Sample.toNumberOther string Sample.createCard
           Sample.manifest Sample.failedFetch).
  vm_compute; reflexivity.
Defined.

(** The first chunk decodes to an object. *)
Lemma non_array_payload_witness :
  let s := clearResults (initial string Sample.manifest) in
  let s' := loadNextChunk Sample.toNumberOther Sample.createCard
              (Resolved Sample.notAnArray) s in
  scanned s' = 0 ∧ shown s' = 0 ∧ results s' = [] ∧
  chunkIndex s' = 1%nat ∧ loading s' = false ∧
  status s' = StatusCounts 0 0 "5".
Proof.
  intros s s'.
  destruct (non_array_payload_is_empty_chunk Sample.toNumberOther string
              Sample.createCard s Sample.notAnArray eq_refl)
    as (_ & _ & _ & Hcall).
  destruct (Hcall eq_refl eq_refl (mk_is_Some _ _ eq_refl))
    as (Hsc & Hsh & Hrs & Hix & Hl).
  split_and!; [exact Hsc|exact Hsh|exact Hrs|exact Hix|exact Hl|reflexivity].
Defined.

End ScannerFacts.

(** ** Recommendation ranker *)

Module ShortsFacts.
Import Num Rng Shorts.

(** *** Sorting *)

Section SortFacts.
Context {A : Type} (before : A → A → bool).

Lemma insertSorted_Permutation x (l : list A) :
  insertSorted before x l ≡ₚ x :: l.
Proof.
  induction l as [|y l IH]; [done|]. cbn.
  destruct (before y x); [|done].
  by rewrite IH, Permutation_swap.
Qed.

Lemma sortBy_Permutation (l : list A) : sortBy before l ≡ₚ l.
Proof.
  induction l as [|x l IH]; [done|]. cbn.
  by rewrite insertSorted_Permutation, IH.
Qed.

End SortFacts.

(** *** Drawing from the generator *)

Lemma rand_bind_eq {A B} (m : Rand A) (f : A → Rand B) (g : gen) :
  (m ≫= f) g = f (m g).1 (m g).2.
Proof. unfold mbind, rand_bind. by destruct (m g). Qed.

Lemma mapRand_cons {A B} (f : A → Rand B) x l g :
  mapRand f (x :: l) g =
    ((f x g).1 :: (mapRand f l (f x g).2).1, (mapRand f l (f x g).2).2).
Proof.
  cbn [mapRand]. rewrite rand_bind_eq.
  pose proof (rand_bind_eq (mapRand f l) (λ ys, mret ((f x g).1 :: ys)) (f x g).2) as ->.
  reflexivity.
Qed.

Lemma scoreOne_fst favSet prof it g : (scoreOne favSet prof it g).1.1 = it.
Proof. unfold scoreOne. by rewrite rand_bind_eq. Qed.

(** The callback of [items.map] pairs each item with its score, in order. *)
Lemma mapRand_scoreOne_fst favSet prof items g :
  (mapRand (scoreOne favSet prof) items g).1.*1 = items.
Proof.
  revert g. induction items as [|it items IH]; intros g; [done|].
  rewrite mapRand_cons. cbn [fst fmap list_fmap].
  by rewrite scoreOne_fst, IH.
Qed.

Lemma shuffleInPlace_Permutation_items (items : list ShortItem) g :
  (shuffleInPlace items g).1 ≡ₚ items.
Proof. apply RngFacts.shuffleInPlace_Permutation. Qed.

(** *** The interleaving loop *)

Lemma pickRelated_true ratio related random ri qi g :
  (pickRelated ratio related random ri qi g).1 = true →
  (ri < length related)%nat.
Proof. unfold pickRelated. by case_decide. Qed.

Lemma pickRelated_false ratio related random ri qi g :
  (pickRelated ratio related random ri qi g).1 = false →
  (length random ≤ qi)%nat → (length related ≤ ri)%nat.
Proof.
  unfold pickRelated. intros Hp Hq.
  case_decide; [|lia]. by case_decide.
Qed.

Lemma loopInv_skip_related items related random ri qi out used cand :
  loopInv items related random ri qi out used →
  related !! ri = Some cand → data_id cand ∈ used →
  loopInv items related random (S ri) qi out used.
Proof.
  intros [] Hc Hu. split; try done.
  intros x. rewrite (take_S_r _ _ _ Hc), elem_of_app, list_elem_of_singleton.
  intros [?| ->]; auto.
Qed.

Lemma loopInv_skip_random items related random ri qi out used cand :
  loopInv items related random ri qi out used →
  random !! qi = Some cand → data_id cand ∈ used →
  loopInv items related random ri (S qi) out used.
Proof.
  intros [] Hc Hu. split; try done.
  intros x. rewrite (take_S_r _ _ _ Hc), elem_of_app, list_elem_of_singleton.
  intros [?| ->]; auto.
Qed.

Lemma loopInv_push items related random ri qi ri' qi' out used cand :
  loopInv items related random ri qi out used →
  cand ∈ items → data_id cand ∉ used →
  (∀ x, x ∈ take ri' related → x ∈ take ri related ∨ x = cand) →
  (∀ x, x ∈ take qi' random → x ∈ take qi random ∨ x = cand) →
  loopInv items related random ri' qi' (out ++ [cand])
          ({[data_id cand]} ∪ used).
Proof.
  intros [Hsub Hnd Hused Hrel Hrnd] Hc Hu Hr Hq. split.
  - intros x. rewrite elem_of_app, list_elem_of_singleton.
    intros [?| ->]; auto.
  - rewrite fmap_app. apply NoDup_app. split_and!; [done| |apply NoDup_singleton].
    intros i Hi Hj. cbn in Hj. apply list_elem_of_singleton in Hj as ->.
    by apply Hu, Hused.
  - intros i. rewrite fmap_app, elem_of_app, elem_of_union, Hused. cbn.
    set_solver.
  - intros x [?| ->]%Hr; set_solver.
  - intros x [?| ->]%Hq; set_solver.
Qed.

(** A list of input items with distinct ids that is as long as the
    input, or that covers the ids of the input, is a permutation of it. *)
Lemma full_output_Permutation (items out : list ShortItem) :
  NoDup (data_id <$> items) →
  (∀ x, x ∈ out → x ∈ items) → NoDup (data_id <$> out) →
  (length items ≤ length out)%nat ∨
    (∀ x, x ∈ items → data_id x ∈ data_id <$> out) →
  out ≡ₚ items.
Proof.
  intros Hitems Hsub Hnd Hfull.
  assert (NoDup out) as Hout by (by eapply NoDup_fmap_1).
  destruct Hfull as [Hlen|Hcover].
  - apply submseteq_length_Permutation; [|done].
    by apply NoDup_submseteq.
  - apply NoDup_Permutation; [done|by eapply NoDup_fmap_1|].
    intros x. split; [apply Hsub|]. intros Hx.
    destruct (proj1 (list_elem_of_fmap _ _ _) (Hcover x Hx)) as (y & Hid & Hy).
    assert (x = y) as ->; [|done].
    apply list_elem_of_lookup in Hx as [i Hi].
    apply Hsub, list_elem_of_lookup in Hy as Hy'. destruct Hy' as [j Hj].
    assert (i = j) as ->.
    { eapply NoDup_lookup; [exact Hitems|..];
        rewrite list_lookup_fmap; [by rewrite Hi|by rewrite Hj, Hid]. }
    congruence.
Qed.

(** From a state that satisfies the invariant the loop returns a
    permutation of the input, provided the input ids are distinct. *)
Lemma interleave_Permutation items n ratio related random ri qi out used g :
  NoDup (data_id <$> items) →
  related ≡ₚ items → random ≡ₚ items → n = length items →
  loopInv items related random ri qi out used →
  interleave n ratio related random ri qi out used g ≡ₚ items.
Proof.
  intros Hitems Hrel Hrnd Hn.
  funelim (interleave n ratio related random ri qi out used g);
    intros Hinv.
  - (* out.length >= items.length *)
    destruct Hinv. apply full_output_Permutation; auto. left. lia.
  - (* a candidate from the related list *)
    match goal with H : related !! ri = Some _ |- _ => rename H into Hc end.
    assert (cand ∈ items) as Hin
      by (rewrite <-Hrel; by eapply list_elem_of_lookup_2).
    destruct (decide (data_id cand ∈ used)) as [Hu|Hu].
    + match goal with IH : data_id cand ∈ used → _ |- _ => apply IH; auto end.
      by eapply loopInv_skip_related.
    + match goal with IH : data_id cand ∉ used → _ |- _ => apply IH; auto end.
      eapply loopInv_push; eauto.
      intros x. rewrite (take_S_r _ _ _ Hc), elem_of_app, list_elem_of_singleton.
      tauto.
  - (* related[ri] is undefined although ri < related.length *)
    match goal with H : pickRelated _ _ _ _ _ _ = (true, _) |- _ =>
      pose proof (pickRelated_true ratio related random ri qi g) as Hlt;
      rewrite H in Hlt; specialize (Hlt eq_refl) end.
    match goal with H : related !! ri = None |- _ =>
      pose proof (proj1 (lookup_ge_None _ _) H); lia end.
  - (* a candidate from the random list *)
    match goal with H : random !! qi = Some _ |- _ => rename H into Hc end.
    assert (cand ∈ items) as Hin
      by (rewrite <-Hrnd; by eapply list_elem_of_lookup_2).
    destruct (decide (data_id cand ∈ used)) as [Hu|Hu].
    + match goal with IH : data_id cand ∈ used → _ |- _ => apply IH; auto end.
      by eapply loopInv_skip_random.
    + match goal with IH : data_id cand ∉ used → _ |- _ => apply IH; auto end.
      eapply loopInv_push; eauto.
      intros x. rewrite (take_S_r _ _ _ Hc), elem_of_app, list_elem_of_singleton.
      tauto.
  - (* both cursors are at the end *)
    match goal with H : random !! qi = None |- _ =>
      pose proof (proj1 (lookup_ge_None _ _) H) as Hq end.
    match goal with H : pickRelated _ _ _ _ _ _ = (false, _) |- _ =>
      pose proof (pickRelated_false ratio related random ri qi g) as Hr;
      rewrite H in Hr; specialize (Hr eq_refl Hq) end.
    destruct Hinv as [Hsub Hnd Hused Hrelv _].
    apply full_output_Permutation; auto. right.
    intros x Hx. apply Hused, Hrelv.
    rewrite take_ge by done. by rewrite Hrel.
Qed.

Lemma loopInv_initial items related random :
  loopInv items related random 0 0 [] ∅.
Proof. split; cbn; try set_solver. apply NoDup_nil_2. Qed.

(** The interleaving branch of [recommendOrder], for the profile [prof]
    and the generator state [g]. *)
Lemma recommendOrder_interleaved w items :
  NoDup (data_id <$> items) →
  let favSet := loadFavSet w in
  ∀ prof g,
    (let '(scored, g1) := mapRand (scoreOne favSet prof) items g in
     let related := (sortBy higherFirst scored).*1 in
     let '(random, g2) := shuffleInPlace items g1 in
     interleave (length items) (relRatio (length favSet)) related random
                0 0 [] ∅ g2) ≡ₚ items.
Proof.
  intros Hnd favSet prof g.
  pose proof (mapRand_scoreOne_fst favSet prof items g) as Hfst.
  destruct (mapRand _ items g) as [scored g1]. cbn [fst] in Hfst.
  pose proof (shuffleInPlace_Permutation_items items g1) as Hsh.
  destruct (shuffleInPlace items g1) as [random g2]. cbn [fst] in Hsh.
  apply interleave_Permutation; auto using loopInv_initial.
  by rewrite sortBy_Permutation, Hfst.
Qed.

(** C1, amended. For an input whose ids are pairwise distinct, whatever
    the favorites and the stored features, the list [recommendOrder]
    returns is a permutation of the input: it has the input's length and
    no id twice. *)
Theorem recommendOrder_Permutation w items :
  NoDup (data_id <$> items) →
  recommendOrder w items ≡ₚ items ∧
  NoDup (data_id <$> recommendOrder w items) ∧
  length (recommendOrder w items) = length items.
Proof.
  intros Hnd.
  assert (recommendOrder w items ≡ₚ items) as Hperm.
  { unfold recommendOrder. cbn zeta.
    case_decide; [apply shuffleInPlace_Permutation_items|].
    destruct (profileIsEmpty _); [apply shuffleInPlace_Permutation_items|].
    by apply recommendOrder_interleaved. }
  split_and!; [done|by rewrite Hperm|by rewrite Hperm].
Qed.

(** *** The shuffle of the script is the Fisher–Yates pass *)

(** The destructuring assignment of the script exchanges two positions. *)
Lemma swap_exchange {A} i j (arr : list A) :
  swap i j arr = FisherYates.exchange i j arr.
Proof.
  unfold swap, FisherYates.exchange. apply list_eq. intros k.
  rewrite list_lookup_imap.
  assert (∀ (f : A → A) (o : option A) y,
            (∀ x, o = Some x → f x = y) → is_Some o → f <$> o = Some y) as Hf.
  { intros f o y Hy [x ->]. cbn. f_equal. by apply Hy. }
  destruct (arr !! i) as [a|] eqn:Hi, (arr !! j) as [b|] eqn:Hj.
  - destruct (decide (k = i)) as [->|Hki].
    + rewrite list_lookup_insert_eq
        by (rewrite length_insert; by eapply lookup_lt_Some).
      symmetry. apply Hf; [|by rewrite Hi]. intros x _. cbn.
      repeat case_decide; by simplify_eq.
    + rewrite list_lookup_insert_ne by done.
      destruct (decide (k = j)) as [->|Hkj].
      * rewrite list_lookup_insert_eq by (by eapply lookup_lt_Some).
        symmetry. apply Hf; [|by rewrite Hj]. intros x _. cbn.
        repeat case_decide; by simplify_eq.
      * rewrite list_lookup_insert_ne by done.
        destruct (arr !! k) as [x|]; [|done]. cbn.
        repeat case_decide; by simplify_eq.
  - destruct (arr !! k) as [x|] eqn:Hk; [|done]. cbn.
    repeat case_decide; by simplify_eq.
  - destruct (arr !! k) as [x|] eqn:Hk; [|done]. cbn.
    repeat case_decide; by simplify_eq.
  - destruct (arr !! k) as [x|] eqn:Hk; [|done]. cbn.
    repeat case_decide; by simplify_eq.
Qed.

Lemma pick_doubleIndex r i : pick r i = FisherYates.doubleIndex r i.
Proof.
  unfold pick, FisherYates.doubleIndex, two32.
  by rewrite Nat2Z.inj_succ, <- Z.add_1_r.
Qed.

(** The loop of [shuffleInPlace] on given draws is the pass with the
    index computed in doubles. *)
Lemma shuffleWith_pass {A} i rs (arr : list A) :
  shuffleWith i rs arr = FisherYates.pass FisherYates.doubleIndex i rs arr.
Proof.
  revert rs arr. induction i as [|i IH]; intros rs arr; [done|].
  destruct rs as [|r rs]; [done|]. cbn [shuffleWith FisherYates.pass].
  by rewrite IH, swap_exchange, pick_doubleIndex.
Qed.

(** Below 2^53 the product is a double: no rounding. *)
Lemma roundD_exact z : 0 ≤ z < 2 ^ 53 → roundD z = z.
Proof.
  intros [H0 H1]. unfold roundD.
  destruct (Z.ltb_spec (Z.log2 z) 53) as [|Hge]; [done|].
  destruct (decide (z = 0)) as [->|Hne]; [done|].
  assert (Z.log2 z < 53) by (apply Z.log2_lt_pow2; lia). lia.
Qed.

Lemma doubleIndex_exact n i :
  0 ≤ n < two32 → Z.of_nat i < 2097152 →
  FisherYates.doubleIndex n i = FisherYates.exactIndex n i.
Proof.
  unfold two32. intros Hn Hi.
  unfold FisherYates.doubleIndex, FisherYates.exactIndex.
  rewrite roundD_exact; [done|]. nia.
Qed.

Lemma draws_range n : ∀ g, Forall (λ r, 0 ≤ r < two32) (draws n g).
Proof.
  induction n as [|n IH]; intros g; cbn [draws]; [constructor|].
  pose proof (RngFacts.next_range g) as Hr.
  destruct (next g) as [r g']. constructor; [done|apply IH].
Qed.

Lemma pass_exact {A} i ns (arr : list A) :
  Z.of_nat i < 2097152 → Forall (λ r, 0 ≤ r < two32) ns →
  FisherYates.pass FisherYates.doubleIndex i ns arr
    = FisherYates.pass FisherYates.exactIndex i ns arr.
Proof.
  revert ns arr. induction i as [|i IH]; intros ns arr Hi Hns; [done|].
  destruct ns as [|n ns]; [done|]. apply Forall_cons in Hns as [Hn Hns].
  cbn [FisherYates.pass].
  rewrite (doubleIndex_exact n (S i) Hn Hi). apply IH; [lia|done].
Qed.

(** Without signal the script returns what [shuffleInPlace] returns. *)
Lemma no_signal_shuffle w items :
  loadFavSet w = [] ∨
    (size (prof_tags (buildProfile w (loadFavSet w))) = 0 ∧
     size (prof_actresses (buildProfile w (loadFavSet w))) = 0 ∧
     size (prof_maker (buildProfile w (loadFavSet w))) = 0 ∧
     size (prof_series (buildProfile w (loadFavSet w))) = 0 ∧
     size (prof_label (buildProfile w (loadFavSet w))) = 0)%nat →
  recommendOrder w items
    = (shuffleInPlace items (mulberry32 (hash32 (seed w)))).1.
Proof.
  intros Hsig. unfold recommendOrder. cbn zeta.
  case_decide as Hcount; [done|].
  destruct Hsig as [Hnil|(Ht & Ha & Hm & Hs & Hl)].
  { by rewrite Hnil in Hcount. }
  unfold profileIsEmpty.
  by rewrite !bool_decide_eq_true_2.
Qed.

(** C2. With no favorite, or with a profile whose five maps are all
    empty, [recommendOrder] returns the Fisher–Yates shuffle of a copy of
    the input and nothing else: the pass from the last position down to
    position 1 that exchanges the element at position [i] with the one at
    [floor(u * (i + 1))], where the values [u] are the first
    [length - 1] values of the generator seeded with the day and the
    sorted favorites, none of them spent on scoring.  The product is
    computed in doubles; for an input of at most 2^21 items that is the
    exact product.  The result is a permutation of the input. *)
Theorem recommendOrder_no_signal w items :
  loadFavSet w = [] ∨
    (size (prof_tags (buildProfile w (loadFavSet w))) = 0 ∧
     size (prof_actresses (buildProfile w (loadFavSet w))) = 0 ∧
     size (prof_maker (buildProfile w (loadFavSet w))) = 0 ∧
     size (prof_series (buildProfile w (loadFavSet w))) = 0 ∧
     size (prof_label (buildProfile w (loadFavSet w))) = 0)%nat →
  let ns := draws (length items - 1) (mulberry32 (hash32 (seed w))) in
  recommendOrder w items
    = FisherYates.shuffle FisherYates.doubleIndex items ns ∧
  (Z.of_nat (length items) ≤ 2097152 →
   recommendOrder w items
     = FisherYates.shuffle FisherYates.exactIndex items ns) ∧
  recommendOrder w items ≡ₚ items.
Proof.
  intros Hsig ns. rewrite (no_signal_shuffle w items Hsig).
  assert ((shuffleInPlace items (mulberry32 (hash32 (seed w)))).1
          = FisherYates.shuffle FisherYates.doubleIndex items ns) as Hfy.
  { unfold shuffleInPlace, FisherYates.shuffle, ns.
    by rewrite RngFacts.shuffleFrom_draws, shuffleWith_pass. }
  split_and!.
  - exact Hfy.
  - intros Hlen. rewrite Hfy. unfold FisherYates.shuffle.
    apply pass_exact; [lia|apply draws_range].
  - apply RngFacts.shuffleInPlace_Permutation.
Qed.

(** *** The favorite set and its key *)

Lemma foldl_setAdd_elem l : ∀ acc x,
  x ∈ foldl setAdd acc l ↔ x ∈ acc ∨ x ∈ l.
Proof.
  induction l as [|y l IH]; intros acc x; cbn.
  - set_solver.
  - rewrite IH. unfold setAdd. case_decide; set_solver.
Qed.

Lemma foldl_setAdd_NoDup l : ∀ acc, NoDup acc → NoDup (foldl setAdd acc l).
Proof.
  induction l as [|y l IH]; intros acc Hacc; cbn; [done|].
  apply IH. unfold setAdd. case_decide; [done|].
  apply NoDup_app. split_and!; [done|set_solver|apply NoDup_singleton].
Qed.

Lemma loadFavSet_elem w x : x ∈ loadFavSet w ↔ x ∈ favs w.
Proof. unfold loadFavSet. rewrite foldl_setAdd_elem. set_solver. Qed.

Lemma loadFavSet_NoDup w : NoDup (loadFavSet w).
Proof. apply foldl_setAdd_NoDup, NoDup_nil_2. Qed.

(** Two stored arrays with the same elements give the same [Set], up to
    the order of insertion. *)
Lemma loadFavSet_Permutation w1 w2 :
  (∀ x, x ∈ favs w1 ↔ x ∈ favs w2) → loadFavSet w1 ≡ₚ loadFavSet w2.
Proof.
  intros Hsame. apply NoDup_Permutation; auto using loadFavSet_NoDup.
  intros x. by rewrite !loadFavSet_elem.
Qed.

Lemma ltb_le x y : String.ltb x y = true → String.le x y.
Proof.
  unfold String.ltb, String.le, String.leb.
  by destruct (String.compare x y).
Qed.

Lemma not_ltb_le x y : String.ltb y x = false → String.le x y.
Proof.
  unfold String.ltb, String.le, String.leb.
  rewrite (String.compare_antisym x y).
  by destruct (String.compare y x).
Qed.

Lemma insertSorted_ltb_Sorted x l :
  Sorted String.le l → Sorted String.le (insertSorted String.ltb x l).
Proof.
  induction 1 as [|y l Hl IH Hhd]; cbn; [by repeat constructor|].
  destruct (String.ltb y x) eqn:Hlt.
  - constructor; [done|].
    destruct Hhd as [|z l Hz]; cbn.
    + constructor. by apply ltb_le.
    + destruct (String.ltb z x); constructor; [done|by apply ltb_le].
  - constructor; [by constructor|]. constructor. by apply not_ltb_le.
Qed.

Lemma sortBy_ltb_Sorted l : Sorted String.le (sortBy String.ltb l).
Proof.
  induction l as [|x l IH]; cbn; [constructor|].
  by apply insertSorted_ltb_Sorted.
Qed.

(** The sorted key does not depend on the order of insertion. *)
Lemma favKey_Permutation l1 l2 : l1 ≡ₚ l2 → favKey l1 = favKey l2.
Proof.
  intros Hperm. unfold favKey. f_equal.
  apply (Sorted_unique String.le); auto using sortBy_ltb_Sorted.
  by rewrite !sortBy_Permutation.
Qed.

(** *** The profile *)

(** A left fold whose steps commute gives the same result on permuted
    lists. *)
Lemma foldl_Permutation {A B} (f : A → B → A) (l1 l2 : list B) :
  (∀ a x y, f (f a x) y = f (f a y) x) →
  l1 ≡ₚ l2 → ∀ a, foldl f a l1 = foldl f a l2.
Proof.
  intros Hcomm. induction 1 as [|x l1 l2 _ IH|x y l|l1 l2 l3 _ IH1 _ IH2];
    intros a; cbn; [done|apply IH|by rewrite Hcomm|by rewrite IH1].
Qed.

Lemma foldl_step_comm {A B} (f : A → B → A) (l : list B) :
  (∀ a x y, f (f a x) y = f (f a y) x) →
  ∀ a x, foldl f (f a x) l = f (foldl f a l) x.
Proof.
  intros Hcomm. induction l as [|y l IH]; intros a x; cbn; [done|].
  by rewrite Hcomm, IH.
Qed.

Lemma addCount_comm (m : gmap string float) k1 k2 w :
  addCount (addCount m k1 w) k2 w = addCount (addCount m k2 w) k1 w.
Proof.
  unfold addCount.
  destruct (nonempty k1), (nonempty k2); try done.
  destruct (decide (k1 = k2)) as [->|Hne]; [done|].
  rewrite !lookup_insert_ne by done.
  by apply insert_insert_ne.
Qed.

Lemma addAll_comm (m : gmap string float) l1 l2 :
  addAll (addAll m l1) l2 = addAll (addAll m l2) l1.
Proof.
  unfold addAll. revert m. induction l2 as [|k l2 IH]; intros m; [done|].
  cbn [foldl].
  rewrite !(foldl_step_comm (λ m k, addCount m k 1%float))
    by (intros; apply addCount_comm).
  by rewrite IH.
Qed.

Lemma learn_comm prof f1 f2 :
  learn (learn prof f1) f2 = learn (learn prof f2) f1.
Proof.
  unfold learn; cbn. f_equal; auto using addAll_comm, addCount_comm.
Qed.

(** The profile does not depend on the order in which the favorites are
    visited. *)
Lemma buildProfile_Permutation w l1 l2 :
  l1 ≡ₚ l2 → buildProfile w l1 = buildProfile w l2.
Proof.
  intros Hperm. unfold buildProfile. apply foldl_Permutation; [|done].
  intros prof x y.
  destruct (loadFavFeatures w !! x), (loadFavFeatures w !! y);
    auto using learn_comm.
Qed.

Lemma scoreOne_Permutation l1 l2 prof it g :
  l1 ≡ₚ l2 → scoreOne l1 prof it g = scoreOne l2 prof it g.
Proof.
  intros Hperm. unfold scoreOne.
  destruct (decide (data_id it ∈ l1)) as [H1|H1],
           (decide (data_id it ∈ l2)) as [H2|H2]; try done.
  - by rewrite Hperm in H1.
  - by rewrite <-Hperm in H2.
Qed.

Lemma mapRand_ext {A B} (f1 f2 : A → Rand B) l g :
  (∀ x g, f1 x g = f2 x g) → mapRand f1 l g = mapRand f2 l g.
Proof.
  intros Hext. revert g. induction l as [|x l IH]; intros g; [done|].
  by rewrite !mapRand_cons, Hext, IH.
Qed.

(** C3. Two calls that read the same calendar day from the clock, the
    same set of favorite ids (in whatever order they were stored) and the
    same feature store return the same ordering of the same input. *)
Theorem recommendOrder_deterministic w1 w2 items :
  day w1 = day w2 →
  (∀ x, x ∈ favs w1 ↔ x ∈ favs w2) →
  features w1 = features w2 →
  recommendOrder w1 items = recommendOrder w2 items.
Proof.
  intros Hday Hfavs Hfeat.
  pose proof (loadFavSet_Permutation w1 w2 Hfavs) as Hperm.
  assert (seed w1 = seed w2) as Hseed.
  { unfold seed. by rewrite Hday, (favKey_Permutation _ _ Hperm). }
  assert (length (loadFavSet w1) = length (loadFavSet w2)) as Hlen
    by (by rewrite Hperm).
  assert (buildProfile w1 (loadFavSet w1) = buildProfile w2 (loadFavSet w2))
    as Hprof.
  { rewrite (buildProfile_Permutation w1 _ _ Hperm).
    unfold buildProfile, loadFavFeatures. by rewrite Hfeat. }
  unfold recommendOrder. cbn zeta. rewrite Hseed, Hlen, Hprof.
  case_decide; [done|].
  destruct (profileIsEmpty _); [done|].
  rewrite (mapRand_ext (scoreOne (loadFavSet w1) _)
                       (scoreOne (loadFavSet w2) _))
    by (intros; by apply scoreOne_Permutation).
  done.
Qed.

(** *** The sample feed *)

Lemma feed_ids_distinct : NoDup (data_id <$> Sample.feed).
Proof. apply (bool_decide_unpack _). vm_compute. exact I. Defined.

Lemma recommendOrder_Permutation_witness :
  recommendOrder Sample.morning Sample.feed ≡ₚ Sample.feed ∧
  NoDup (data_id <$> recommendOrder Sample.morning Sample.feed) ∧
  length (recommendOrder Sample.morning Sample.feed) = length Sample.feed.
Proof.
  exact (recommendOrder_Permutation Sample.morning Sample.feed
           feed_ids_distinct).
Defined.

(** Both cases on the sample feed: no favorite, and one favorite
    without stored features. *)
Lemma recommendOrder_no_signal_witness :
  (recommendOrder Sample.noFavorites Sample.feed
     = FisherYates.shuffle FisherYates.exactIndex Sample.feed
         [3813521505; 112286518; 370969109; 468741743] ∧
   data_id <$> recommendOrder Sample.noFavorites Sample.feed
     = ["b"; "c"; "d"; "a"; "w1"]) ∧
  (recommendOrder Sample.unlearned Sample.feed
     = FisherYates.shuffle FisherYates.exactIndex Sample.feed
         [3178642878; 577948232; 2947892450; 3781354434] ∧
   data_id <$> recommendOrder Sample.unlearned Sample.feed
     = ["w1"; "b"; "c"; "a"; "d"]).
Proof.
  split.
  - pose proof (recommendOrder_no_signal Sample.noFavorites Sample.feed
                  (or_introl eq_refl)) as H.
    cbv zeta in H. destruct H as (_ & Hexact & _).
    split; [|vm_compute; reflexivity].
    apply Hexact. cbn. lia.
  - assert (size (prof_tags (buildProfile Sample.unlearned
                               (loadFavSet Sample.unlearned))) = 0 ∧
            size (prof_actresses (buildProfile Sample.unlearned
                                    (loadFavSet Sample.unlearned))) = 0 ∧
            size (prof_maker (buildProfile Sample.unlearned
                                (loadFavSet Sample.unlearned))) = 0 ∧
            size (prof_series (buildProfile Sample.unlearned
                                 (loadFavSet Sample.unlearned))) = 0 ∧
            size (prof_label (buildProfile Sample.unlearned
                                (loadFavSet Sample.unlearned))) = 0)%nat
      as Hempty by (split_and!; reflexivity).
    pose proof (recommendOrder_no_signal Sample.unlearned Sample.feed
                  (or_intror Hempty)) as H.
    cbv zeta in H. destruct H as (_ & Hexact & _).
    split; [|vm_compute; reflexivity].
    apply Hexact. cbn. lia.
Defined.

Lemma recommendOrder_deterministic_witness :
  recommendOrder Sample.morning Sample.feed
    = recommendOrder Sample.evening Sample.feed.
Proof.
  apply (recommendOrder_deterministic Sample.morning Sample.evening Sample.feed).
  - reflexivity.
  - intros x. cbn. rewrite !elem_of_cons. tauto.
  - reflexivity.
Defined.

(** With the blended order the personalised entry comes first; the
    output is the one computed below. *)
Example recommendOrder_sample :
  data_id <$> recommendOrder Sample.morning Sample.feed
    = ["b"; "a"; "d"; "c"; "w1"].
Proof. vm_compute. reflexivity. Qed.

(** When two items carry the same id, the shuffle keeps both and the
    blended order keeps only the first one it meets. *)
Example recommendOrder_feedTwice :
  data_id <$> recommendOrder Sample.noFavorites Sample.feedTwice
    = ["a"; "a"; "c"] ∧
  data_id <$> recommendOrder Sample.morning Sample.feedTwice = ["a"; "c"].
Proof. split; vm_compute; reflexivity. Qed.

(** C1 as stated fails: on an input in which two items carry the same id
    the output is not always as long as the input, and not always free of
    repeated ids. *)
Lemma recommendOrder_same_id_twice :
  ¬ (∀ w items,
       NoDup (data_id <$> recommendOrder w items) ∧
       length (recommendOrder w items) = length items) ∧
  length (recommendOrder Sample.morning Sample.feedTwice)
    ≠ length Sample.feedTwice ∧
  ¬ NoDup (data_id <$> recommendOrder Sample.noFavorites Sample.feedTwice).
Proof.
  assert (length (recommendOrder Sample.morning Sample.feedTwice)
          ≠ length Sample.feedTwice) as Hlen
    by (vm_compute; discriminate).
  split_and!; [|exact Hlen|].
  - intros H. destruct (H Sample.morning Sample.feedTwice) as [_ Heq].
    exact (Hlen Heq).
  - destruct recommendOrder_feedTwice as [-> _].
    intros Hnd. apply NoDup_cons in Hnd as [Hnotin _].
    apply Hnotin. left.
Qed.

End ShortsFacts.

(** ** The payload obfuscation *)

Module CodecFacts.
Import Codec.

Lemma lxor_byte a b : isByte a → isByte b → isByte (Z.lxor a b).
Proof.
  unfold isByte. intros [Ha Ha'] [Hb Hb'].
  assert (0 ≤ Z.lxor a b) as Hnn by (apply Z.lxor_nonneg; tauto).
  split; [done|].
  destruct (decide (Z.lxor a b = 0)) as [->|Hne]; [done|].
  change 256 with (2 ^ 8) in *. apply Z.log2_lt_pow2; [lia|].
  eapply Z.le_lt_trans; [by apply Z.log2_lxor|].
  apply Z.max_lub_lt.
  - destruct (decide (a = 0)) as [->|]; [done|]. apply Z.log2_lt_pow2; lia.
  - destruct (decide (b = 0)) as [->|]; [done|]. apply Z.log2_lt_pow2; lia.
Qed.

Lemma XOR_KEY_bytes : Forall isByte XOR_KEY.
Proof. unfold isByte. repeat constructor; cbn; lia. Qed.

Lemma keyAt_byte j : isByte (default 0 (XOR_KEY !! j)).
Proof.
  destruct (XOR_KEY !! j) as [k|] eqn:Hk; cbn; [|unfold isByte; lia].
  by eapply Forall_lookup_1; [apply XOR_KEY_bytes|].
Qed.

(** X1. Applying [xorInPlace] twice to the bytes of a [Uint8Array] gives
    the bytes back: the transformation that hides a payload is the one
    that reveals it. *)
Theorem xorInPlace_involutive bytes :
  Forall isByte bytes → xorInPlace (xorInPlace bytes) = bytes.
Proof.
  unfold xorInPlace. generalize 0%nat. intros i H. revert i.
  induction H as [|b rest Hb _ IH]; intros i; [done|].
  cbn [xorFrom]. rewrite IH. f_equal.
  pose proof (keyAt_byte (i mod length XOR_KEY)) as Hk.
  set (k := default 0 (XOR_KEY !! (i mod length XOR_KEY)%nat)) in *.
  pose proof (lxor_byte b k Hb Hk) as Hx. unfold isByte in *.
  rewrite (Z.mod_small (Z.lxor b k)) by done.
  rewrite Z.lxor_assoc, Z.lxor_nilpotent, Z.lxor_0_r.
  by apply Z.mod_small.
Qed.

Lemma xorInPlace_involutive_witness :
  xorInPlace (xorInPlace [31; 139; 8; 0; 255]) = [31; 139; 8; 0; 255].
Proof.
  apply xorInPlace_involutive. unfold isByte. repeat constructor; lia.
Defined.

Lemma xorFrom_length i bytes : length (xorFrom i bytes) = length bytes.
Proof. revert i. induction bytes as [|b rest IH]; intros i; cbn; [done|]. by rewrite IH. Qed.

Lemma xorFrom_lookup i bytes n b :
  bytes !! n = Some b →
  xorFrom i bytes !! n
    = Some (Z.lxor b (default 0 (XOR_KEY !! ((i + n) mod length XOR_KEY)%nat)) mod 256).
Proof.
  revert i n. induction bytes as [|b0 rest IH]; intros i n Hn; [done|].
  destruct n as [|n]; cbn [xorFrom].
  - cbn in Hn. simplify_eq. by rewrite Nat.add_0_r.
  - etrans; [apply (IH (S i) n Hn)|].
    by replace (S i + n)%nat with (i + S n)%nat by lia.
Qed.

(** X2. [xorInPlace] keeps the length of the array and changes the byte
    at index [n] only by the key byte at [n mod 16]: bytes sixteen places
    apart are combined with the same key byte, and the result is again an
    array of bytes. *)
Theorem xorInPlace_keyed bytes :
  length (xorInPlace bytes) = length bytes ∧
  Forall isByte (xorInPlace bytes) ∧
  ∀ n b, bytes !! n = Some b →
    xorInPlace bytes !! n
      = Some (Z.lxor b (default 0 (XOR_KEY !! (n mod 16)%nat)) mod 256).
Proof.
  split_and!.
  - apply xorFrom_length.
  - unfold xorInPlace. generalize 0%nat.
    induction bytes as [|b rest IH]; intros i; cbn [xorFrom]; constructor.
    + unfold isByte. apply Z.mod_pos_bound. lia.
    + apply IH.
  - intros n b Hn. unfold xorInPlace. by rewrite (xorFrom_lookup 0 bytes n b Hn).
Qed.

End CodecFacts.

(** ** The filter predicate and the query state *)

Module FilterFacts.
Import Js Search SearchUi.

(** X3. [normalizeManifest] is idempotent: what it returns is a manifest
    it passes through unchanged, since the object built from a compact
    document has no field [v]. *)
Theorem normalizeManifest_idempotent m m' :
  normalizeManifest m = Some m' → normalizeManifest m' = Some m'.
Proof.
  unfold normalizeManifest at 1.
  destruct (isV3 m) eqn:Hv3.
  - intros Hm. simplify_option_eq. reflexivity.
  - intros [= <-]. unfold normalizeManifest. by rewrite Hv3.
Qed.

Lemma normalizeManifest_idempotent_witness :
  normalizeManifest Sample.manifest = Some Sample.manifest.
Proof.
  exact (normalizeManifest_idempotent Sample.rawManifest Sample.manifest eq_refl).
Defined.

(** X4. [normalizeItem] is idempotent: an entry it returns is not an
    array unless it was passed through, so normalizing again changes
    nothing and never reaches the runtime's number conversion. *)
Theorem normalizeItem_idempotent T it it' :
  normalizeItem T it = Some it' → normalizeItem T it' = Some it'.
Proof.
  unfold normalizeItem at 1.
  destruct it; intros H; simplify_option_eq; reflexivity.
Qed.

Lemma normalizeItem_idempotent_witness :
  normalizeItem Sample.toNumberOther (Entry.objectForm Sample.entry)
    = Some (Entry.objectForm Sample.entry).
Proof.
  exact (normalizeItem_idempotent Sample.toNumberOther
           (Entry.positionalArrayForm Sample.entry) _ eq_refl).
Defined.

(** *** The query text *)

Lemma lower_space c : is_space c = true → lower c = c.
Proof.
  unfold is_space, lower. intros H.
  destruct (_ || _)%bool eqn:E in |- *; [|done].
  exfalso. revert H E. generalize (Ascii.N_of_ascii c). intros n H E.
  repeat (apply orb_prop in H as [H|H] || apply andb_prop in H as [H ?]
          || apply orb_prop in E as [E|E] || apply andb_prop in E as [E ?]);
    repeat match goal with
           | H : (_ <=? _)%N = true |- _ => apply N.leb_le in H
           | H : (_ =? _)%N = true |- _ => apply N.eqb_eq in H
           | H : negb _ = true |- _ => clear H
           end; lia.
Qed.

Lemma normStr_blank s : blank s → normStr s = "".
Proof.
  unfold normStr, trim, blank. intros H.
  assert (trimStart (toLowerCase s) = "") as ->; [|done].
  induction s as [|c s IH]; [done|].
  cbn in H. apply Forall_cons in H as [Hc Hs].
  cbn. rewrite (lower_space c Hc), Hc. by apply IH.
Qed.

(** X5. With no box ticked, no maker, no series, no tag selected and a
    query text of white space only, [matchItem] accepts every value
    without reading any of its properties: also [undefined] and [null],
    on which a property read would throw. *)
Theorem matchItem_no_filter st it :
  hasImg st = false → hasMov st = false → maker st = "" → series st = "" →
  tags st = [] → blank (q st) →
  matchItem st it = Some true.
Proof.
  intros Hi Hm Hmk Hsr Ht Hq. unfold matchItem.
  rewrite Hi, Hm, Hmk, Hsr, Ht, (normStr_blank _ Hq). reflexivity.
Qed.

Lemma matchItem_no_filter_witness :
  matchItem {| q := "  "; maker := ""; series := ""; hasImg := false;
               hasMov := false; tags := [] |} JUndef = Some true.
Proof.
  apply matchItem_no_filter; try reflexivity.
  unfold blank. cbn. repeat constructor.
Defined.

(** X6. An entry [matchItem] accepts passes every filter that is set:
    its [has_img] is truthy when the image box is ticked, its [has_mov]
    when the movie box is, and its [maker] and [series] are exactly the
    strings selected. *)
Theorem matchItem_accepted_filters st it :
  matchItem st it = Some true →
  (hasImg st = true → ∃ v, get it "has_img" = Some v ∧ truthy v = true) ∧
  (hasMov st = true → ∃ v, get it "has_mov" = Some v ∧ truthy v = true) ∧
  (maker st ≠ "" → get it "maker" = Some (JStr (maker st))) ∧
  (series st ≠ "" → get it "series" = Some (JStr (series st))).
Proof.
  unfold matchItem. intros Hm.
  apply bind_Some in Hm as (noImg & HnoImg & Hm).
  destruct noImg; [done|].
  apply bind_Some in Hm as (noMov & HnoMov & Hm).
  destruct noMov; [done|].
  apply bind_Some in Hm as (badMaker & HbadMaker & Hm).
  destruct badMaker; [done|].
  apply bind_Some in Hm as (badSeries & HbadSeries & Hm).
  destruct badSeries; [done|].
  assert (∀ s v, negb (is_str s v) = false → v = JStr s) as Hstr.
  { intros s v H. apply negb_false_iff in H.
    destruct v; try done. cbn in H. by apply String.eqb_eq in H as ->. }
  split_and!.
  - intros E. rewrite E in HnoImg.
    apply fmap_Some in HnoImg as (v & Hv & Hn). exists v. split; [done|].
    cbn in Hn. by destruct (truthy v).
  - intros E. rewrite E in HnoMov.
    apply fmap_Some in HnoMov as (v & Hv & Hn). exists v. split; [done|].
    cbn in Hn. by destruct (truthy v).
  - intros E. unfold nonempty in HbadMaker.
    destruct (String.eqb_spec (maker st) ""); [done|]. cbn in HbadMaker.
    apply fmap_Some in HbadMaker as (v & Hv & Hn). cbn in Hn.
    symmetry in Hn. by rewrite (Hstr _ _ Hn) in Hv.
  - intros E. unfold nonempty in HbadSeries.
    destruct (String.eqb_spec (series st) ""); [done|]. cbn in HbadSeries.
    apply fmap_Some in HbadSeries as (v & Hv & Hn). cbn in Hn.
    symmetry in Hn. by rewrite (Hstr _ _ Hn) in Hv.
Qed.

Lemma matchItem_accepted_filters_witness :
  get (Entry.objectForm Sample.entry) "maker" = Some (JStr "M").
Proof.
  refine (proj1 (proj2 (proj2 (matchItem_accepted_filters
           {| q := "one"; maker := "M"; series := ""; hasImg := true;
              hasMov := false; tags := ["vr"] |}
           (Entry.objectForm Sample.entry) _))) _).
  - reflexivity.
  - discriminate.
Defined.

(** *** The selected tags *)

Lemma hasAllTags_elem selected tagsv :
  hasAllTags selected tagsv = true ↔
  ∀ t, t ∈ selected → hasAllTags [t] tagsv = true.
Proof.
  unfold hasAllTags. rewrite forallb_forall. split.
  - intros H t Ht. cbn. rewrite andb_true_r. by apply H, list_elem_of_In.
  - intros H t Ht. apply list_elem_of_In, H in Ht. cbn in Ht.
    by rewrite andb_true_r in Ht.
Qed.

(** The part of [matchItem] that reads the selected tags. *)
Lemma matchItem_tags_only st st' it :
  q st = q st' → maker st = maker st' → series st = series st' →
  hasImg st = hasImg st' → hasMov st = hasMov st' →
  match tags st with
  | [] => Some true
  | _ => hasAllTags (tags st) <$> get it "tags"
  end =
  match tags st' with
  | [] => Some true
  | _ => hasAllTags (tags st') <$> get it "tags"
  end →
  matchItem st it = matchItem st' it.
Proof.
  destruct st, st'; cbn. intros -> -> -> -> -> E.
  unfold matchItem; cbn. by rewrite E.
Qed.

Lemma toggleTag_twice_tags name st :
  NoDup (tags st) → tags (toggleTag name (toggleTag name st)) ≡ₚ tags st.
Proof.
  intros Hnd. unfold toggleTag; cbn.
  set (keep := λ t : string, negb (String.eqb t name)).
  assert (∀ l, name ∉ l → List.filter keep l = l) as Hid.
  { intros l Hl. induction l as [|x l IH]; [done|]. cbn.
    apply not_elem_of_cons in Hl as [Hx Hl]. unfold keep at 1.
    destruct (String.eqb_spec x name); [by subst|]. cbn. by rewrite IH. }
  assert (∀ l, name ∉ List.filter keep l) as Hout.
  { intros l Hin. apply list_elem_of_In, filter_In in Hin as [_ Hk].
    unfold keep in Hk. by rewrite String.eqb_refl in Hk. }
  destruct (decide (name ∈ tags st)) as [Hin|Hin].
  - rewrite decide_False by apply Hout.
    clear Hout. induction (tags st) as [|x l IH]; [by apply elem_of_nil in Hin|].
    apply NoDup_cons in Hnd as [Hx Hnd]. cbn. unfold keep at 1.
    destruct (String.eqb_spec x name) as [->|Hne]; cbn.
    + rewrite (Hid l Hx). by rewrite <- Permutation_cons_append.
    + apply elem_of_cons in Hin as [?|Hin]; [congruence|].
      by rewrite (IH Hnd Hin).
  - rewrite decide_True by (apply elem_of_app; right; by left).
    rewrite List.filter_app, (Hid _ Hin). cbn. unfold keep.
    by rewrite String.eqb_refl, app_nil_r.
Qed.

(** X7. Toggling a tag twice leaves the filter as it was: the Set of
    selected tags holds the same tags (the tag toggled may have moved to
    the end), and [matchItem] gives the same answer, exception included,
    on every entry. *)
Theorem toggleTag_twice name st it :
  NoDup (tags st) →
  tags (toggleTag name (toggleTag name st)) ≡ₚ tags st ∧
  matchItem (toggleTag name (toggleTag name st)) it = matchItem st it.
Proof.
  intros Hnd. pose proof (toggleTag_twice_tags name st Hnd) as Hp.
  split; [done|].
  apply matchItem_tags_only; try reflexivity.
  set (l' := tags (toggleTag name (toggleTag name st))) in *.
  assert (∀ tv, hasAllTags l' tv = hasAllTags (tags st) tv) as Hall.
  { intros tv. apply eq_true_iff_eq. rewrite !hasAllTags_elem.
    by setoid_rewrite Hp. }
  destruct l' as [|x l'], (tags st) as [|y l] eqn:E; try done.
  - by apply Permutation_nil_cons in Hp.
  - symmetry in Hp. by apply Permutation_nil_cons in Hp.
  - destruct (get it "tags") as [tv|]; [|done].
    change (Some (hasAllTags (x :: l') tv) = Some (hasAllTags (y :: l) tv)).
    by rewrite Hall.
Qed.

Lemma toggleTag_twice_witness :
  matchItem (toggleTag "vr" (toggleTag "vr" scenarioState)) scenarioEntry
    = matchItem scenarioState scenarioEntry.
Proof.
  refine (proj2 (toggleTag_twice "vr" scenarioState scenarioEntry _)).
  cbn. repeat constructor; set_solver.
Defined.

(** X8. Selecting one more tag never adds a result: an entry accepted
    after [toggleTag] has added a tag was accepted before. *)
Theorem toggleTag_add_narrows name st it :
  name ∉ tags st →
  matchItem (toggleTag name st) it = Some true →
  matchItem st it = Some true.
Proof.
  intros Hin Hm.
  assert (tags (toggleTag name st) = tags st ++ [name]) as Ht
    by (unfold toggleTag; cbn; by rewrite decide_False).
  destruct (SearchFacts.matchItem_tags (toggleTag name st) it) as (tv & Hget & Hall);
    [rewrite Ht; by destruct (tags st)|done|].
  rewrite <- Hm. apply matchItem_tags_only; try reflexivity.
  rewrite Ht in *. rewrite Hget. cbn.
  assert (hasAllTags (tags st) tv = true) as Hsub.
  { apply hasAllTags_elem. intros t Hin'.
    apply (proj1 (hasAllTags_elem _ _) Hall). apply elem_of_app. by left. }
  rewrite Hall, Hsub. by destruct (tags st), (tags st ++ [name]).
Qed.

Lemma toggleTag_add_narrows_witness :
  matchItem {| q := ""; maker := ""; series := ""; hasImg := false;
               hasMov := false; tags := ["vr"] |} scenarioEntry = Some true.
Proof.
  apply (toggleTag_add_narrows "outdoor").
  - cbn. set_solver.
  - reflexivity.
Defined.

(** *** The text search *)

Lemma prefix_app q a b :
  String.prefix q a = true → String.prefix q (a +:+ b) = true.
Proof.
  revert a. induction q as [|c q IH]; intros a; [by destruct a, b|].
  destruct a as [|d a]; simpl; [done|].
  destruct (Ascii.ascii_dec c d); [apply IH|done].
Qed.

Lemma includes_unfold hay q :
  includes hay q =
    String.prefix q hay ||
    match hay with
    | EmptyString => false
    | String _ hay' => includes hay' q
    end.
Proof. by destruct hay. Qed.

Lemma includes_app_r a b q :
  includes b q = true → includes (a +:+ b) q = true.
Proof.
  intros H. induction a as [|c a IH]; [done|].
  change (String c a +:+ b) with (String c (a +:+ b)).
  rewrite includes_unfold, IH. apply orb_true_r.
Qed.

Lemma includes_app_l a b q :
  includes a q = true → includes (a +:+ b) q = true.
Proof.
  induction a as [|c a IH]; rewrite includes_unfold; intros H.
  - rewrite orb_false_r in H. destruct q; [|done].
    rewrite includes_unfold. by destruct b.
  - change (String c a +:+ b) with (String c (a +:+ b)).
    rewrite includes_unfold.
    apply orb_prop in H as [H|H].
    + pose proof (prefix_app _ (String c a) b H) as H'.
      change (String c a +:+ b) with (String c (a +:+ b)) in H'.
      by rewrite H'.
    + rewrite (IH H). apply orb_true_r.
Qed.

Lemma includes_concat sep parts p q :
  p ∈ parts → includes p q = true →
  includes (String.concat sep parts) q = true.
Proof.
  intros Hin Hp. induction parts as [|x xs IH]; [by apply elem_of_nil in Hin|].
  cbn [String.concat]. apply elem_of_cons in Hin as [<-|Hin].
  - destruct xs; [done|]. by apply includes_app_l.
  - destruct xs as [|y xs]; [by apply elem_of_nil in Hin|].
    apply includes_app_r, includes_app_r. by apply IH.
Qed.

Lemma norm_str s : norm (JStr s) = Some (normStr s).
Proof. unfold norm. by rewrite SearchFacts.or_else_str. Qed.

Lemma sequence_norm_strs l :
  sequence (norm <$> (JStr <$> l)) = Some (normStr <$> l).
Proof.
  induction l as [|s l IH]; [done|].
  rewrite !fmap_cons. cbn [sequence]. rewrite norm_str, IH. reflexivity.
Qed.

(** X9. With no other filter set, an entry is accepted when the
    normalized query occurs in its normalized title, maker, series, or in
    one of its tags or performers: the search ignores case and the white
    space around the query. *)
Theorem matchItem_text_hit st e p :
  hasImg st = false → hasMov st = false → maker st = "" → series st = "" →
  tags st = [] →
  p ∈ Entry.title e :: Entry.maker e :: Entry.series e
        :: Entry.tags e ++ Entry.actresses e →
  includes (normStr p) (normStr (q st)) = true →
  matchItem st (Entry.objectForm e) = Some true.
Proof.
  intros Hi Hm Hmk Hsr Ht Hin Hp. unfold matchItem.
  rewrite Hi, Hm, Hmk, Hsr, Ht.
  cbn -[normStr includes norm String.concat sequence].
  destruct (negb _); [done|].
  rewrite <- fmap_app.
  change (sequence _) with
    (sequence (norm <$> (JStr <$> Entry.title e :: Entry.maker e
                 :: Entry.series e :: Entry.tags e ++ Entry.actresses e))).
  rewrite sequence_norm_strs. cbn [mbind option_bind].
  f_equal. apply (includes_concat _ _ (normStr p)); [|done].
  by apply list_elem_of_fmap_2.
Qed.

Lemma matchItem_text_hit_witness :
  matchItem {| q := " OUT "; maker := ""; series := ""; hasImg := false;
               hasMov := false; tags := [] |}
            (Entry.objectForm Sample.entry) = Some true.
Proof.
  apply (matchItem_text_hit _ _ "outdoor"); try reflexivity.
  cbn. set_solver.
Defined.

End FilterFacts.

(** ** The scanner between events *)

Module SessionFacts.
Import Js Search SearchUi.

Section Scanner.

Variable ToNumberOther : jsval → option jsval.
Variable Card : Type.
Variable createCard : jsval → option Card.

Abbreviation scanItems := (scanItems ToNumberOther createCard).
Abbreviation loadNextChunk_resume :=
  (loadNextChunk_resume ToNumberOther createCard).
Abbreviation loadNextChunk := (loadNextChunk ToNumberOther createCard).
Abbreviation step := (step ToNumberOther createCard).
Abbreviation run := (run ToNumberOther createCard).
Abbreviation loadAll := (loadAll ToNumberOther createCard).

Implicit Types (s : Scanner Card) (o : Outcome) (e : Event).

(** A fragment that is appended holds one card per unit added to
    [shown]. *)
Lemma scanItems_fragment st items sh frag sh' frag' :
  scanItems st items sh frag = (sh', Some frag') →
  sh' - sh = Z.of_nat (length frag') - Z.of_nat (length frag).
Proof.
  revert sh frag. induction items as [|raw rest IH]; intros sh frag.
  - cbn. intros [= <- <-]. lia.
  - cbn [Search.scanItems]. repeat case_match; try done.
    + intros Hs%IH. rewrite length_app in Hs. cbn in Hs. lia.
    + apply IH.
Qed.

Lemma clearResults_queue s :
  results (clearResults s) = [] ∧ manifest (clearResults s) = manifest s ∧
  state (clearResults s) = state s.
Proof.
  unfold clearResults. destruct (truthy (manifest s)); [|done].
  destruct (sliceChunks (manifest s)) as [cs|]; [|done].
  match goal with |- context [updateStatus ?c] =>
    destruct (updateStatus c) as [s'|] eqn:Hu; cbn [default]; [|done]
  end.
  apply ScannerFacts.updateStatus_fields in Hu. cbn in *. intuition congruence.
Qed.

(** The resumed call never touches the manifest, the queue or the query
    state, and appends the fragment only when the loop ran to its end. *)
Lemma loadNextChunk_resume_queue o s :
  let s' := loadNextChunk_resume o s in
  manifest s' = manifest s ∧ chunks s' = chunks s ∧ state s' = state s ∧
  results s' =
    match o with
    | Rejected => results s
    | Resolved rawItems =>
        match (scanItems (state s) (itemsOf rawItems) (shown s) []).2 with
        | Some frag => results s ++ frag
        | None => results s
        end
    end.
Proof.
  unfold Search.loadNextChunk_resume.
  destruct o as [|rawItems]; cbn zeta; [done|].
  destruct (scanItems _ _ _ _) as [sh [frag|]] eqn:Hscan; cbn [snd]; [|done].
  match goal with |- context [updateStatus ?c] =>
    destruct (updateStatus c) as [s'|] eqn:Hu; cbn [default]; [|done]
  end.
  apply ScannerFacts.updateStatus_fields in Hu. cbn in *. intuition congruence.
Qed.

Lemma step_results s e s' :
  step s e = Some s' →
  Z.of_nat (length (results s)) ≤ shown s →
  Z.of_nat (length (results s')) ≤ shown s'.
Proof.
  destruct e as [qs| | |o]; cbn [Search.step].
  - by intros [= <-].
  - intros [= <-] _.
    destruct (ScannerFacts.clearResults_counters _ s) as (_ & -> & _).
    by destruct (clearResults_queue s) as (-> & _).
  - intros [= <-].
    by destruct (ScannerFacts.loadNextChunk_begin_counters _ s) as (_ & -> & ->).
  - destruct (inflight s); [|done]. intros [= <-] Hinv.
    destruct (ScannerFacts.loadNextChunk_resume_fields ToNumberOther _ createCard o s)
      as (_ & -> & _).
    destruct (loadNextChunk_resume_queue o s) as (_ & _ & _ & ->).
    destruct o as [|rawItems]; [done|].
    pose proof (ScannerFacts.scanItems_shown ToNumberOther Card createCard
                  (state s) (itemsOf rawItems) (shown s) []) as Hsh.
    destruct (scanItems _ _ _ _) as [sh [frag|]] eqn:Hscan; cbn [fst snd] in *.
    + apply scanItems_fragment in Hscan. rewrite length_app. cbn in Hscan. lia.
    + lia.
Qed.

Lemma step_cursor s e s' :
  step s e = Some s' →
  (chunkIndex s ≤ length (chunks s))%nat →
  (chunkIndex s' ≤ length (chunks s'))%nat.
Proof.
  destruct e as [qs| | |o]; cbn [Search.step].
  - by intros [= <-].
  - intros [= <-] _.
    destruct (ScannerFacts.clearResults_counters _ s) as (_ & _ & -> & _). lia.
  - intros [= <-] Hinv. unfold loadNextChunk_begin.
    destruct (loading s); [done|]. destruct (negb _); [done|].
    destruct (chunks s !! chunkIndex s) eqn:Hc; [|done].
    apply lookup_lt_Some in Hc. cbn. lia.
  - destruct (inflight s); [|done]. intros [= <-].
    destruct (ScannerFacts.loadNextChunk_resume_fields ToNumberOther _ createCard o s)
      as (_ & _ & _ & _ & ->).
    by destruct (loadNextChunk_resume_queue o s) as (_ & -> & _).
Qed.

(** X10. In every state reached from the initial one the results element
    holds at most [shown] cards (fewer when a chunk threw after some of
    its entries had been counted), and the cursor is inside the queue or
    just past its end. *)
Theorem scanner_results_and_cursor m es s :
  run (initial Card m) es = Some s →
  Z.of_nat (length (results s)) ≤ shown s ∧
  (chunkIndex s ≤ length (chunks s))%nat.
Proof.
  assert (∀ es s0 s1, run s0 es = Some s1 →
            Z.of_nat (length (results s0)) ≤ shown s0 ∧
            (chunkIndex s0 ≤ length (chunks s0))%nat →
            Z.of_nat (length (results s1)) ≤ shown s1 ∧
            (chunkIndex s1 ≤ length (chunks s1))%nat) as Hrun.
  { clear. induction es as [|e es IH]; intros s0 s1 Hrun [Hr Hc]; cbn in Hrun.
    - by simplify_eq.
    - apply bind_Some in Hrun as (s' & Hstep & Hrun).
      apply (IH _ _ Hrun). eauto using step_results, step_cursor. }
  intros H. apply (Hrun _ _ _ H). cbn. lia.
Qed.

(** One call that runs to its end, from a state with no call suspended. *)
Lemma loadNextChunk_call o s :
  loading s = false → truthy (manifest s) = true →
  let s' := loadNextChunk o s in
  loading s' = false ∧ manifest s' = manifest s ∧ chunks s' = chunks s ∧
  ((chunkIndex s < length (chunks s))%nat →
   chunkIndex s' = S (chunkIndex s) ∧ scanned s' = scanned s + decoded [o]).
Proof.
  intros Hl Hm. unfold Search.loadNextChunk. rewrite Hl, Hm. cbn [negb].
  destruct (chunks s !! chunkIndex s) as [chunk|] eqn:Hc.
  - rewrite (ScannerFacts.loadNextChunk_begin_advances _ s chunk Hl Hm Hc).
    match goal with |- context [loadNextChunk_resume _ ?c] =>
      destruct (ScannerFacts.loadNextChunk_resume_fields ToNumberOther _
                  createCard o c) as (Hsc & _ & Hld & _ & Hci);
      destruct (loadNextChunk_resume_queue o c) as (Hmf & Hch & _)
    end.
    cbn zeta. rewrite Hsc, Hld, Hci, Hmf, Hch. cbn.
    split_and!; try done. intros _. split; [done|]. destruct o; lia.
  - apply lookup_ge_None in Hc. cbn zeta. split_and!; try done. lia.
Qed.

(** X11. Calls of [loadNextChunk] made one after the other, each
    finished before the next, walk the queue in order: after [n] calls
    the cursor has advanced by [n] or stopped at the end of the queue,
    [scanned] has grown by the entries of the payloads actually fetched
    (the calls past the end fetch nothing), and the guard is clear. *)
Theorem loadAll_walks_queue os s :
  loading s = false → truthy (manifest s) = true →
  (chunkIndex s ≤ length (chunks s))%nat →
  chunkIndex (loadAll os s)
    = ((chunkIndex s + length os) `min` length (chunks s))%nat ∧
  scanned (loadAll os s)
    = scanned s + decoded (take (length (chunks s) - chunkIndex s) os) ∧
  loading (loadAll os s) = false.
Proof.
  revert s. induction os as [|o os IH]; intros s Hl Hm Hci.
  - cbn. split_and!; [lia| |done]. rewrite take_nil. cbn. lia.
  - change (loadAll (o :: os) s) with (loadAll os (loadNextChunk o s)).
    destruct (loadNextChunk_call o s Hl Hm) as (Hl' & Hm' & Hch & Hadv).
    cbn zeta in *.
    destruct (decide (chunkIndex s < length (chunks s))%nat) as [Hlt|Hge].
    + destruct (Hadv Hlt) as [Hci' Hsc'].
      destruct (IH (loadNextChunk o s)) as (-> & -> & ->);
        [done|by rewrite Hm'|rewrite Hch, Hci'; lia|].
      rewrite Hch, Hci', Hsc'. cbn [length].
      replace (length (chunks s) - chunkIndex s)%nat
        with (S (length (chunks s) - S (chunkIndex s))) by lia.
      cbn [take]. split_and!; [lia| |done].
      unfold decoded. cbn [foldr]. destruct o; lia.
    + rewrite (ScannerFacts.loadNextChunk_exhausted _ _ createCard o s)
        by lia.
      destruct (IH s) as (-> & -> & ->); [done..|].
      replace (length (chunks s) - chunkIndex s)%nat with 0%nat by lia.
      cbn [length take]. split_and!; [lia|done|done].
Qed.

(** X12. A reset by the debounce timer while a fetch is pending starts
    no second fetch and does not cancel the pending one: the guard and
    the suspended call stay, counters and cursor are zero and the results
    are empty.  When the stale payload arrives its entries are counted
    into the new view and the cursor still stands at the first chunk. *)
Theorem onDebounce_while_loading s o :
  loading s = true →
  let s' := onDebounce s in
  loading s' = true ∧ inflight s' = inflight s ∧
  chunkIndex s' = 0%nat ∧ scanned s' = 0 ∧ shown s' = 0 ∧ results s' = [] ∧
  scanned (loadNextChunk_resume o s') = decoded [o] ∧
  chunkIndex (loadNextChunk_resume o s') = 0%nat.
Proof.
  intros Hl.
  destruct (ScannerFacts.clearResults_counters _ s)
    as (Hsc & Hsh & Hci & Hld & Hin).
  destruct (clearResults_queue s) as (Hrs & _).
  assert (onDebounce s = clearResults s) as Heq.
  { unfold onDebounce. destruct (clearResultsThrows s); [done|].
    unfold loadNextChunk_begin. by rewrite Hld, Hl. }
  cbn zeta. rewrite Heq, Hsc, Hsh, Hci, Hld, Hin, Hrs.
  destruct (ScannerFacts.loadNextChunk_resume_fields ToNumberOther _
              createCard o (clearResults s)) as (-> & _ & _ & _ & ->).
  rewrite Hsc, Hci. split_and!; try done. destruct o; cbn; lia.
Qed.

(** X13. With no fetch pending, a reset that does not throw starts the
    fetch of the first chunk of the manifest's list; a reset that throws
    (the manifest has no usable [chunks], or its [total] cannot be
    printed) starts none. *)
Theorem onDebounce_idle s :
  loading s = false → truthy (manifest s) = true →
  let s' := onDebounce s in
  if clearResultsThrows s then loading s' = false ∧ inflight s' = inflight s
  else
    ∃ cs, sliceChunks (manifest s) = Some cs ∧ chunks s' = cs ∧
          match cs with
          | [] => loading s' = false ∧ inflight s' = inflight s ∧
                  chunkIndex s' = 0%nat
          | c :: _ => loading s' = true ∧ inflight s' = Some c ∧
                      chunkIndex s' = 1%nat
          end.
Proof.
  intros Hl Hm. cbn zeta. unfold onDebounce.
  destruct (ScannerFacts.clearResults_counters _ s)
    as (_ & _ & Hci & Hld & Hin).
  destruct (clearResults_queue s) as (_ & Hmf & _).
  destruct (clearResultsThrows s) eqn:Hthrow.
  - by rewrite Hld, Hin.
  - unfold clearResultsThrows in Hthrow. rewrite Hm in Hthrow. cbn in Hthrow.
    destruct (sliceChunks (manifest s)) as [cs|] eqn:Hcs; [|done].
    exists cs. split; [done|].
    assert (chunks (clearResults s) = cs) as Hch.
    { unfold clearResults in *. rewrite Hm, Hcs in *.
      match goal with |- context [updateStatus ?c] =>
        destruct (updateStatus c) as [s'|] eqn:Hu; cbn [default]; [|done]
      end.
      apply ScannerFacts.updateStatus_fields in Hu. cbn in Hu.
      intuition congruence. }
    unfold loadNextChunk_begin. rewrite Hld, Hl, Hmf, Hm, Hci, Hch. cbn [negb].
    destruct cs as [|c cs]; cbn.
    + by rewrite Hin, Hld, Hci, Hch.
    + done.
Qed.

End Scanner.

Lemma scanner_results_and_cursor_witness :
  ∃ s, run Sample.toNumberOther Sample.createCard
           (initial string Sample.manifest) Sample.twoChunks = Some s ∧
       length (results s) = 5%nat ∧ chunkIndex s = 2%nat ∧
       Z.of_nat (length (results s)) ≤ shown s ∧
       (chunkIndex s ≤ length (chunks s))%nat.
Proof.
  eexists. split; [vm_compute; reflexivity|].
  split; [reflexivity|]. split; [reflexivity|].
  apply (scanner_results_and_cursor Sample.toNumberOther string
           Sample.createCard Sample.manifest Sample.twoChunks).
  vm_compute; reflexivity.
Defined.

Lemma loadAll_walks_queue_witness :
  let s := clearResults (initial string Sample.manifest) in
  let os := [Resolved Sample.chunkA; Resolved Sample.chunkB; Rejected] in
  chunkIndex (loadAll Sample.toNumberOther Sample.createCard os s) = 2%nat ∧
  scanned (loadAll Sample.toNumberOther Sample.createCard os s) = 5 ∧
  loading (loadAll Sample.toNumberOther Sample.createCard os s) = false.
Proof.
  intros s os.
  destruct (loadAll_walks_queue Sample.toNumberOther string Sample.createCard
              os s eq_refl eq_refl) as (Hci & Hsc & Hl); [cbn; lia|].
  split_and!; [exact Hci|exact Hsc|exact Hl].
Defined.

(** A reset between the request for the first chunk and its arrival. *)
Lemma onDebounce_while_loading_witness :
  let s := loadNextChunk_begin (clearResults (initial string Sample.manifest)) in
  let s' := onDebounce s in
  loading s' = true ∧ inflight s' = inflight s ∧
  chunkIndex s' = 0%nat ∧ scanned s' = 0 ∧ shown s' = 0 ∧ results s' = [] ∧
  scanned (loadNextChunk_resume Sample.toNumberOther Sample.createCard
             (Resolved Sample.chunkA) s') = 3 ∧
  chunkIndex (loadNextChunk_resume Sample.toNumberOther Sample.createCard
                (Resolved Sample.chunkA) s') = 0%nat.
Proof.
  exact (onDebounce_while_loading Sample.toNumberOther string Sample.createCard
           (loadNextChunk_begin (clearResults (initial string Sample.manifest)))
           (Resolved Sample.chunkA) eq_refl).
Defined.

Lemma onDebounce_idle_witness :
  let s := initial string Sample.manifest in
  ∃ cs, sliceChunks (manifest s) = Some cs ∧ chunks (onDebounce s) = cs ∧
        match cs with
        | [] => loading (onDebounce s) = false ∧
                inflight (onDebounce s) = inflight s ∧
                chunkIndex (onDebounce s) = 0%nat
        | c :: _ => loading (onDebounce s) = true ∧
                    inflight (onDebounce s) = Some c ∧
                    chunkIndex (onDebounce s) = 1%nat
        end.
Proof.
  exact (onDebounce_idle string (initial string Sample.manifest)
           eq_refl eq_refl).
Defined.

End SessionFacts.

(** ** Favorites and recently viewed *)

Module PersonalFacts.
Import Js Personal.

Lemma includesId_filter_same id l :
  includesId id (List.filter (λ x, negb (is_str id x)) l) = false.
Proof.
  unfold includesId. induction l as [|x l IH]; [done|]. cbn.
  destruct (is_str id x) eqn:E; cbn; [done|]. by rewrite E.
Qed.

Lemma is_str_inj id id' x : is_str id x = true → is_str id' x = true → id = id'.
Proof.
  destruct x; try done. cbn.
  intros H1%String.eqb_eq H2%String.eqb_eq. congruence.
Qed.

Lemma includesId_filter_other id id' l :
  id' ≠ id →
  includesId id' (List.filter (λ x, negb (is_str id x)) l) = includesId id' l.
Proof.
  intros Hne. unfold includesId. induction l as [|x l IH]; [done|]. cbn.
  destruct (is_str id x) eqn:E; cbn; [|by rewrite IH].
  rewrite IH. destruct (is_str id' x) eqn:E'; [|done].
  by destruct Hne; apply (is_str_inj _ _ x).
Qed.

Lemma getFavList_saved ok2 v l st :
  getFavList (saveJSON ok2 KEY_FAV_META v (saveJSON true KEY_FAVS (JArr l) st))
    = l.
Proof. by destruct ok2. Qed.

Section Assign.

Variable assign : jsval → string → jsval → jsval.

Abbreviation toggleFav := (toggleFav assign).

(** X14. When the write of the list succeeds and the assignment to the
    meta map does not throw, [toggleFav] flips the favorite state of the
    work: afterwards [isFav] answers the opposite of what it answered
    before, whether or not the write of the meta map succeeds.  The
    assignment is reached only for a work that is not a favorite; when it
    throws (the stored meta map is an array and the id is [length])
    nothing is written and the work stays as it was. *)
Theorem toggleFav_flips ok1 ok2 m st :
  nonempty (id m) = true →
  (ok1 = true →
   isFav st (id m) = true ∨ assignThrows (getFavMeta st) (id m) = false →
   isFav (toggleFav ok1 ok2 (Some m) st) (id m) = negb (isFav st (id m))) ∧
  (isFav st (id m) = false → assignThrows (getFavMeta st) (id m) = true →
   toggleFav ok1 ok2 (Some m) st = st).
Proof.
  intros Hid. unfold Personal.toggleFav. rewrite Hid. cbn [negb]. split.
  - intros -> Hok.
    destruct (isFav st (id m)) eqn:Hfav; cbn [negb].
    + unfold removeFav, isFav. cbn. apply includesId_filter_same.
    + destruct Hok as [?|Hok]; [done|].
      unfold upsertFav, isFav in *. rewrite Hok, getFavList_saved, Hfav. cbn.
      by rewrite String.eqb_refl.
  - intros -> Hthrow. unfold upsertFav. by rewrite Hthrow.
Qed.

(** X15. [toggleFav] changes the favorite state of no other work and
    never writes the list of recently viewed works, whichever of its
    writes fail. *)
Theorem toggleFav_others ok1 ok2 meta st id' :
  (∀ m, meta = Some m → id' ≠ id m) →
  isFav (toggleFav ok1 ok2 meta st) id' = isFav st id' ∧
  recent (toggleFav ok1 ok2 meta st) = recent st.
Proof.
  intros Hne. unfold Personal.toggleFav.
  destruct meta as [m|]; [|done]. specialize (Hne m eq_refl).
  destruct (negb _); [done|].
  destruct (isFav st (id m)) eqn:Hfav.
  - unfold removeFav, isFav. destruct ok1; [|done]. cbn.
    split; [|done]. by apply includesId_filter_other.
  - unfold upsertFav, isFav in *. rewrite Hfav.
    destruct (assignThrows _ _); [done|].
    destruct ok1, ok2; cbn; split; try done.
    all: destruct (String.eqb_spec (id m) id'); [congruence|done].
Qed.

End Assign.

(** A work added to a stored list; and the id [length] on a meta map
    stored as an array, which is left as it was. *)
Lemma toggleFav_flips_witness :
  let work (i : string) :=
    {| id := i; title := "One"; hero := ""; path := "works/a1/";
       maker := "M"; release := "2026-01-01"; hasImg := true;
       hasMov := false |} in
  let stored := {| favs := Some (JArr [JStr "b2"; JNum 7]); favMeta := None;
                   recent := None |} in
  let odd := {| favs := None; favMeta := Some (JArr []); recent := None |} in
  isFav (Personal.toggleFav (λ o _ _, o) true false (Some (work "a1")) stored)
        "a1" = true ∧
  Personal.toggleFav (λ o _ _, o) true true (Some (work "length")) odd = odd ∧
  isFav (Personal.toggleFav (λ o _ _, o) true true (Some (work "length")) odd)
        "length" = false.
Proof.
  intros work stored odd. split_and!.
  - exact (proj1 (toggleFav_flips (λ o _ _, o) true false (work "a1") stored
                    eq_refl) eq_refl (or_intror eq_refl)).
  - exact (proj2 (toggleFav_flips (λ o _ _, o) true true (work "length") odd
                    eq_refl) eq_refl eq_refl).
  - reflexivity.
Defined.

Lemma toggleFav_others_witness :
  isFav (Personal.toggleFav (λ o _ _, o) true true
           (Some {| id := "a1"; title := "One"; hero := ""; path := "works/a1/";
                    maker := "M"; release := "2026-01-01"; hasImg := true;
                    hasMov := false |})
           {| favs := Some (JArr [JStr "b2"; JStr "a1"]); favMeta := None;
              recent := None |}) "b2" = true.
Proof.
  refine (proj1 (toggleFav_others (λ o _ _, o) true true _ _ "b2" _)).
  by intros m [= <-].
Defined.

(** *** Recently viewed *)

Lemma List_filter_sublist {A} (f : A → bool) l : List.filter f l `sublist_of` l.
Proof.
  induction l as [|x l IH]; [done|]. cbn.
  destruct (f x); by constructor.
Qed.

(** X16. When its write succeeds, [addRecent] leaves a list that starts
    with the work just viewed, stamped with the time, and continues with
    stored items in their stored order, none of them falsy or carrying
    the same id; the list has at most thirty items, and nothing else is
    dropped from a stored list that was not full. *)

Theorem addRecent_list now m st :
  nonempty (id m) = true →
  ∃ rest,
    recentList (addRecent true now (Some m) st)
      = JObj (metaProps m ++ [("ts", JNum now)]) :: rest ∧
    (length rest < MAX_RECENT)%nat ∧
    rest `sublist_of` recentList st ∧
    Forall (λ x, otherItem (id m) x = true) rest ∧
    ((length (recentList st) < MAX_RECENT)%nat →
     rest = List.filter (otherItem (id m)) (recentList st)).
Proof.
  intros Hid. unfold addRecent. rewrite Hid. cbn [negb].
  fold (recentList st). set (old := recentList st).
  exists (take (MAX_RECENT - 1) (List.filter (otherItem (id m)) old)).
  split_and!.
  - done.
  - rewrite length_take. unfold MAX_RECENT. lia.
  - etrans; [apply sublist_take|]. apply List_filter_sublist.
  - apply Forall_take. apply Forall_forall. intros x Hx.
    by apply list_elem_of_In, filter_In in Hx as [_ ?].
  - intros Hlen. apply take_ge.
    pose proof (filter_length_le (otherItem (id m)) old) as Hle.
    unfold MAX_RECENT in *. lia.
Qed.

Lemma addRecent_list_witness :
  ∃ rest,
    recentList (addRecent true 1793700000000
                  (Some {| id := "a1"; title := "One"; hero := "";
                           path := "works/a1/"; maker := "M";
                           release := "2026-01-01"; hasImg := true;
                           hasMov := false |})
                  {| favs := None; favMeta := None;
                     recent := Some (JArr [JObj [("id", JStr "b2")]; JNull;
                                           JObj [("id", JStr "a1")]]) |})
      = JObj (metaProps {| id := "a1"; title := "One"; hero := "";
                           path := "works/a1/"; maker := "M";
                           release := "2026-01-01"; hasImg := true;
                           hasMov := false |}
              ++ [("ts", JNum 1793700000000)]) :: rest ∧
    rest = [JObj [("id", JStr "b2")]].
Proof.
  destruct (addRecent_list 1793700000000
              {| id := "a1"; title := "One"; hero := ""; path := "works/a1/";
                 maker := "M"; release := "2026-01-01"; hasImg := true;
                 hasMov := false |}
              {| favs := None; favMeta := None;
                 recent := Some (JArr [JObj [("id", JStr "b2")]; JNull;
                                       JObj [("id", JStr "a1")]]) |} eq_refl)
    as (rest & Heq & _ & _ & _ & Hall).
  exists rest. split; [exact Heq|]. apply Hall. cbn. unfold MAX_RECENT. lia.
Defined.

(** *** Escaping *)

Lemma list_ascii_app r t :
  String.list_ascii_of_string (r +:+ t)
    = String.list_ascii_of_string r ++ String.list_ascii_of_string t.
Proof.
  induction r as [|a r IH]; [done|].
  change (String a r +:+ t) with (String a (r +:+ t)). cbn. by rewrite IH.
Qed.

Lemma replaceAll_Forall (P Q : Ascii.ascii → Prop) c r s :
  Forall P (String.list_ascii_of_string r) →
  (∀ a, Q a → a ≠ c → P a) →
  Forall Q (String.list_ascii_of_string s) →
  Forall P (String.list_ascii_of_string (replaceAll c r s)).
Proof.
  intros Hr HPQ. induction s as [|a s IH]; cbn; [constructor|].
  intros [Ha Hs]%Forall_cons.
  destruct (Ascii.eqb_spec a c) as [->|Hne].
  - rewrite list_ascii_app. apply Forall_app. auto.
  - cbn. constructor; auto.
Qed.

Lemma replaceAll_absent c r s :
  c ∉ String.list_ascii_of_string s → replaceAll c r s = s.
Proof.
  induction s as [|a s IH]; cbn; [done|].
  intros [Ha Hs]%not_elem_of_cons.
  destruct (Ascii.eqb_spec a c) as [->|Hne]; [done|]. by rewrite IH.
Qed.

(** X17. The text [escapeHtml] returns contains none of the characters
    [<], [>], double quote and apostrophe, whatever the text it was
    given. *)
Theorem escapeHtml_no_markup s :
  Forall (λ a, isMarkup a = false) (String.list_ascii_of_string (escapeHtml s)).
Proof.
  unfold escapeHtml.
  apply (replaceAll_Forall _
           (λ a, a ≠ chLt ∧ a ≠ chGt ∧ a ≠ chQuot)).
  { repeat constructor. }
  { intros a (H1 & H2 & H3) H4. unfold isMarkup.
    destruct (Ascii.eqb_spec a chLt), (Ascii.eqb_spec a chGt),
      (Ascii.eqb_spec a chQuot), (Ascii.eqb_spec a chApos); done. }
  apply (replaceAll_Forall _ (λ a, a ≠ chLt ∧ a ≠ chGt)).
  { repeat constructor; discriminate. }
  { intros a (H1 & H2) H3. done. }
  apply (replaceAll_Forall _ (λ a, a ≠ chLt)).
  { repeat constructor; discriminate. }
  { done. }
  apply (replaceAll_Forall _ (λ _, True)).
  { repeat constructor; discriminate. }
  { done. }
  by apply Forall_true.
Qed.

(** X18. [escapeHtml] returns a text without [&], [<], [>], double quote
    and apostrophe as it is. *)
Theorem escapeHtml_plain s :
  Forall (λ a, a ∉ [chAmp; chLt; chGt; chQuot; chApos])
         (String.list_ascii_of_string s) →
  escapeHtml s = s.
Proof.
  intros H. unfold escapeHtml.
  assert (∀ c, c ∈ [chAmp; chLt; chGt; chQuot; chApos] →
               c ∉ String.list_ascii_of_string s) as Habs.
  { intros c Hc Hin. by apply (proj1 (Forall_forall _ _) H c Hin). }
  rewrite (replaceAll_absent chAmp) by (apply Habs; set_solver).
  rewrite (replaceAll_absent chLt) by (apply Habs; set_solver).
  rewrite (replaceAll_absent chGt) by (apply Habs; set_solver).
  rewrite (replaceAll_absent chQuot) by (apply Habs; set_solver).
  apply replaceAll_absent, Habs. set_solver.
Qed.

Lemma escapeHtml_plain_witness : escapeHtml "2026-01-01" = "2026-01-01".
Proof.
  apply escapeHtml_plain. repeat constructor; vm_compute; set_solver.
Defined.

End PersonalFacts.

(** ** The favorites store of the shorts script *)

Module StoreFacts.
Import Shorts ShortsStore.

Lemma filter_absent (name : string) l :
  name ∉ l → List.filter (λ t, negb (String.eqb t name)) l = l.
Proof.
  intros Hl. induction l as [|x l IH]; [done|]. cbn.
  apply not_elem_of_cons in Hl as [Hx Hl].
  destruct (String.eqb_spec x name); [by subst|]. cbn. by rewrite IH.
Qed.

Lemma elem_of_filter_out (name x : string) l :
  x ∈ List.filter (λ t, negb (String.eqb t name)) l ↔ x ∈ l ∧ x ≠ name.
Proof.
  rewrite !list_elem_of_In, filter_In, negb_true_iff.
  destruct (String.eqb_spec x name); intuition congruence.
Qed.

Lemma filter_out_append (name : string) l :
  NoDup l → name ∈ l →
  List.filter (λ t, negb (String.eqb t name)) l ++ [name] ≡ₚ l.
Proof.
  induction l as [|x l IH]; intros Hnd Hin; [by apply elem_of_nil in Hin|].
  apply NoDup_cons in Hnd as [Hx Hnd]. cbn.
  destruct (String.eqb_spec x name) as [->|Hne]; cbn.
  - rewrite (filter_absent _ _ Hx). by rewrite <- Permutation_cons_append.
  - apply elem_of_cons in Hin as [?|Hin]; [congruence|].
    by rewrite (IH Hnd Hin).
Qed.

Lemma NoDup_filter_out (name : string) l :
  NoDup l → NoDup (List.filter (λ t, negb (String.eqb t name)) l).
Proof.
  induction 1 as [|x l Hx Hnd IH]; cbn; [constructor|].
  destruct (negb _); [|done]. constructor; [|done].
  rewrite elem_of_filter_out. tauto.
Qed.

Lemma foldl_setAdd_NoDup_id l : ∀ acc,
  NoDup (acc ++ l) → foldl setAdd acc l = acc ++ l.
Proof.
  induction l as [|x l IH]; intros acc Hnd; cbn; [by rewrite app_nil_r|].
  unfold setAdd at 2. rewrite decide_False.
  - rewrite IH; by rewrite <- (assoc_L (++)).
  - apply NoDup_app in Hnd as (_ & Hd & _). intros Hin.
    apply (Hd x Hin). by left.
Qed.

(** The [Set] read back from an array written by [saveFavSet]. *)
Lemma loadFavSet_saved set w :
  NoDup set → loadFavSet (saveFavSet true set w) = set.
Proof. intros Hnd. apply (foldl_setAdd_NoDup_id set []). done. Qed.

Lemma favs_learn okF id item w :
  favs (learnFavFeatures okF id item w) = favs w.
Proof.
  unfold learnFavFeatures, saveFavFeatures.
  destruct item; [|done]. destruct (nonempty id); [|done]. by destruct okF.
Qed.

Lemma favs_forget okF id w : favs (forgetFavFeatures okF id w) = favs w.
Proof.
  unfold forgetFavFeatures, saveFavFeatures.
  destruct (nonempty id); [|done]. by destruct okF.
Qed.

Lemma features_saveFavSet okS set w :
  features (saveFavSet okS set w) = features w.
Proof. by destruct okS. Qed.

Lemma toggled_NoDup id set : NoDup set → NoDup (toggled id set).
Proof.
  intros Hnd. unfold toggled. case_decide.
  - by apply NoDup_filter_out.
  - apply NoDup_app. split_and!; [done|set_solver|apply NoDup_singleton].
Qed.

Lemma toggleFav_set okF id item w :
  nonempty id = true →
  loadFavSet (toggleFav okF true id item w).2 = toggled id (loadFavSet w).
Proof.
  intros Hid. unfold toggleFav, toggled. rewrite Hid. cbn [negb].
  pose proof (ShortsFacts.loadFavSet_NoDup w) as Hnd.
  case_decide; cbn [snd]; apply loadFavSet_saved.
  - by apply NoDup_filter_out.
  - apply NoDup_app. split_and!; [done|set_solver|apply NoDup_singleton].
Qed.

(** X19. When the write of the set succeeds, [toggleFav] returns the new
    favorite state of the work, which is the opposite of the old one, and
    the array it stores holds every favorite once. *)
Theorem shorts_toggleFav_flips okF id item w :
  nonempty id = true →
  (toggleFav okF true id item w).1 = negb (isFav w id) ∧
  isFav (toggleFav okF true id item w).2 id = (toggleFav okF true id item w).1 ∧
  NoDup (favs (toggleFav okF true id item w).2).
Proof.
  intros Hid.
  pose proof (toggleFav_set okF id item w Hid) as Hset.
  pose proof (ShortsFacts.loadFavSet_NoDup w) as Hnd.
  unfold isFav. rewrite Hset, Hid. cbn [andb].
  unfold toggleFav, toggled in *. rewrite Hid in *. cbn [negb] in *.
  destruct (decide (id ∈ loadFavSet w)) as [Hin|Hin]; cbn [fst snd] in *.
  - rewrite (bool_decide_eq_true_2 _ Hin), bool_decide_eq_false_2.
    + split_and!; [done|done|]. by apply NoDup_filter_out.
    + rewrite elem_of_filter_out. tauto.
  - rewrite (bool_decide_eq_false_2 _ Hin), bool_decide_eq_true_2 by set_solver.
    split_and!; [done|done|].
    apply NoDup_app. split_and!; [done|set_solver|apply NoDup_singleton].
Qed.

Lemma shorts_toggleFav_flips_witness :
  (toggleFav false true "w3" None Sample.evening).1
    = negb (isFav Sample.evening "w3") ∧
  isFav (toggleFav false true "w3" None Sample.evening).2 "w3"
    = (toggleFav false true "w3" None Sample.evening).1 ∧
  NoDup (favs (toggleFav false true "w3" None Sample.evening).2).
Proof. exact (shorts_toggleFav_flips false "w3" None Sample.evening eq_refl). Defined.

(** X20. [toggleFav] changes the favorite state of no other work,
    whichever of its writes fail. *)
Theorem shorts_toggleFav_others okF okS id item w id' :
  id' ≠ id →
  isFav (toggleFav okF okS id item w).2 id' = isFav w id'.
Proof.
  intros Hne. unfold isFav. f_equal. apply bool_decide_ext.
  rewrite !ShortsFacts.loadFavSet_elem.
  unfold toggleFav. destruct (negb (nonempty id)); [done|].
  case_decide; cbn [snd]; destruct okS; cbn;
    rewrite ?favs_forget, ?favs_learn; try done.
  - rewrite elem_of_filter_out, ShortsFacts.loadFavSet_elem. tauto.
  - rewrite elem_of_app, ShortsFacts.loadFavSet_elem. set_solver.
Qed.

Lemma shorts_toggleFav_others_witness :
  isFav (toggleFav true true "w2" None Sample.morning).2 "w1"
    = isFav Sample.morning "w1".
Proof.
  apply shorts_toggleFav_others. discriminate.
Defined.

(** X21. Toggling the same work twice, with both writes of the set
    succeeding, restores the favorites: the Set read afterwards has the
    same elements as the one read before. *)
Theorem shorts_toggleFav_twice okF okF' id item item' w :
  loadFavSet (toggleFav okF' true id item'
                (toggleFav okF true id item w).2).2
    ≡ₚ loadFavSet w.
Proof.
  destruct (nonempty id) eqn:Hid; [|by unfold toggleFav; rewrite Hid].
  rewrite !toggleFav_set by done.
  pose proof (ShortsFacts.loadFavSet_NoDup w) as Hnd. unfold toggled.
  destruct (decide (id ∈ loadFavSet w)) as [Hin|Hin].
  - rewrite decide_False by (rewrite elem_of_filter_out; tauto).
    by apply filter_out_append.
  - rewrite decide_True by set_solver.
    rewrite List.filter_app, (filter_absent _ _ Hin). cbn.
    by rewrite String.eqb_refl, app_nil_r.
Qed.

Lemma toggleFav_learns okS id it w :
  nonempty id = true → id ≠ "__proto__" → id ∉ loadFavSet w →
  features (toggleFav true okS id (Some it) w).2 !! id
    = Some (readItemMeta it).
Proof.
  intros Hid Hproto Hin. unfold toggleFav. rewrite Hid. cbn [negb].
  rewrite decide_False by done. cbn [snd]. rewrite features_saveFavSet.
  unfold learnFavFeatures, setFeature, loadFavFeatures. rewrite Hid.
  destruct (String.eqb_spec id "__proto__"); [done|]. cbn.
  apply lookup_insert_eq.
Qed.

(** X22. With the write of the features succeeding, toggling a work on
    stores the features read from its element under its id, toggling it
    off deletes them, and the features stored for every other id stay as
    they were.  (The id [__proto__] is not a key an assignment can
    create.) *)
Theorem shorts_toggleFav_features okS id it w :
  nonempty id = true → id ≠ "__proto__" →
  features (toggleFav true okS id (Some it) w).2 !! id
    = (if decide (id ∈ loadFavSet w) then None else Some (readItemMeta it)) ∧
  ∀ id', id' ≠ id →
    features (toggleFav true okS id (Some it) w).2 !! id' = features w !! id'.
Proof.
  intros Hid Hproto. unfold toggleFav. rewrite Hid. cbn [negb].
  assert (String.eqb id "__proto__" = false) as Hp
    by (by destruct (String.eqb_spec id "__proto__")).
  case_decide; cbn [snd]; rewrite features_saveFavSet;
    unfold forgetFavFeatures, learnFavFeatures, setFeature, loadFavFeatures;
    rewrite Hid, ?Hp; cbn.
  - split; [apply lookup_delete_eq|]. intros id' Hne. by apply lookup_delete_ne.
  - split; [apply lookup_insert_eq|]. intros id' Hne. by apply lookup_insert_ne.
Qed.

Lemma shorts_toggleFav_features_witness :
  features (toggleFav true true "b" (Some (Sample.short "b" ["P"]))
              Sample.morning).2 !! "b"
    = Some (readItemMeta (Sample.short "b" ["P"])).
Proof.
  refine (proj1 (shorts_toggleFav_features true "b" (Sample.short "b" ["P"])
                   Sample.morning eq_refl _)).
  discriminate.
Defined.

(** X23. If both writes of [toggleFav] succeed, or both fail, the stored
    features stay those of favorites: every id that has features after
    the call is in the stored favorites, provided this held before. *)
Theorem shorts_toggleFav_learned ok id item w :
  learnedAreFavorites w →
  learnedAreFavorites (toggleFav ok ok id item w).2.
Proof.
  intros Hinv. unfold toggleFav.
  destruct (nonempty id) eqn:Hid; cbn [negb]; [|done].
  destruct ok;
    [|case_decide; cbn [snd];
      unfold saveFavSet, forgetFavFeatures, learnFavFeatures, saveFavFeatures;
      [|destruct item]; rewrite ?Hid; done].
  unfold learnedAreFavorites in *.
  case_decide as Hin; cbn [snd]; intros id' [f Hf]; cbn in *.
  - unfold forgetFavFeatures, loadFavFeatures in Hf. rewrite Hid in Hf. cbn in Hf.
    apply lookup_delete_Some in Hf as [Hne Hf].
    rewrite elem_of_filter_out, ShortsFacts.loadFavSet_elem. split; [|done]. by apply Hinv.
  - rewrite elem_of_app, ShortsFacts.loadFavSet_elem.
    destruct (decide (id' = id)) as [->|Hne]; [right; by left|left].
    apply Hinv. exists f. revert Hf.
    unfold learnFavFeatures, setFeature, loadFavFeatures.
    destruct item as [it|]; [|done]. rewrite Hid. cbn.
    destruct (_ && _); [done|]. by rewrite lookup_insert_ne.
Qed.

Lemma shorts_toggleFav_learned_witness :
  learnedAreFavorites
    (toggleFav true true "w1" None Sample.morning).2.
Proof.
  apply shorts_toggleFav_learned.
  intros id [f Hf]. unfold Sample.morning, Sample.learned in *. cbn in *.
  apply lookup_singleton_Some in Hf as [<- _]. set_solver.
Defined.

End StoreFacts.

(** ** The profile and the ranking on any input *)

Module RankFacts.
Import Num Rng Shorts ShortsStore.

(** *** When the profile is empty *)

Lemma nonempty_false s : nonempty s = false ↔ s = "".
Proof.
  unfold nonempty. rewrite negb_false_iff. apply String.eqb_eq.
Qed.

Lemma addCount_empty (m : gmap string float) k w :
  addCount m k w = ∅ ↔ m = ∅ ∧ k = "".
Proof.
  unfold addCount. destruct (nonempty k) eqn:Hk.
  - split; [intros H; by apply insert_non_empty in H|].
    intros [_ ->]. done.
  - apply nonempty_false in Hk. tauto.
Qed.

Lemma addAll_empty keys : ∀ m : gmap string float,
  addAll m keys = ∅ ↔ m = ∅ ∧ Forall (λ k, k = "") keys.
Proof.
  unfold addAll. induction keys as [|k keys IH]; intros m; cbn.
  - split; [by intros ->|tauto].
  - rewrite IH, addCount_empty, Forall_cons. tauto.
Qed.

Lemma learn_empty prof f :
  profEmpty (learn prof f) ↔ profEmpty prof ∧ featureless f.
Proof.
  unfold profEmpty, featureless, learn; cbn.
  rewrite !addAll_empty, !addCount_empty. tauto.
Qed.

Lemma buildProfile_empty w favSet : ∀ prof,
  profEmpty (foldl (λ prof id,
                    match loadFavFeatures w !! id with
                    | Some f => learn prof f
                    | None => prof
                    end) prof favSet) ↔
  profEmpty prof ∧
  ∀ id f, id ∈ favSet → features w !! id = Some f → featureless f.
Proof.
  unfold loadFavFeatures.
  induction favSet as [|id0 favSet IH]; intros prof; cbn [foldl].
  - split; [|tauto]. intros H. split; [done|]. by intros ? ? ?%elem_of_nil.
  - rewrite IH. destruct (features w !! id0) as [f0|] eqn:Hf0.
    + rewrite learn_empty. split.
      * intros [[Hp Hf] Hall]. split; [done|]. intros id f Hin Hf'.
        apply elem_of_cons in Hin as [->|Hin]; [congruence|eauto].
      * intros [Hp Hall]. split_and!; [done| |].
        -- apply (Hall id0); [by left|done].
        -- intros id f Hin. apply Hall. by right.
    + split; intros [Hp Hall]; (split; [done|]); intros id f Hin Hf.
      * apply elem_of_cons in Hin as [->|Hin]; [congruence|eauto].
      * apply (Hall id); [by right|done].
Qed.

Lemma profileIsEmpty_profEmpty prof :
  profileIsEmpty prof = true ↔ profEmpty prof.
Proof.
  unfold profileIsEmpty, profEmpty.
  rewrite !andb_true_iff, !bool_decide_eq_true, !map_size_empty_iff. tauto.
Qed.

(** X24. The profile built from the favorites is empty exactly when no
    favorite has stored features that name a tag, a performer, a maker, a
    series or a label: favorites without stored features, and empty
    strings in stored features, count for nothing. *)
Theorem profileIsEmpty_buildProfile w favSet :
  profileIsEmpty (buildProfile w favSet) = true ↔
  ∀ id f, id ∈ favSet → features w !! id = Some f → featureless f.
Proof.
  rewrite profileIsEmpty_profEmpty. unfold buildProfile.
  rewrite buildProfile_empty. unfold profEmpty, emptyProfile; cbn. tauto.
Qed.

(** X25. Marking a work as favorite switches the ranking on: after
    [toggleFav] has added a work whose element names a tag, a performer,
    a maker, a series or a label, both writes succeeding, the profile
    built from the stored favorites is not empty. *)
Theorem toggleFav_profile id it w :
  nonempty id = true → id ≠ "__proto__" → id ∉ loadFavSet w →
  ¬ featureless (readItemMeta it) →
  let w' := (toggleFav true true id (Some it) w).2 in
  profileIsEmpty (buildProfile w' (loadFavSet w')) = false.
Proof.
  intros Hid Hproto Hin Hfeat w'.
  apply not_true_is_false. intros Hempty. apply Hfeat.
  apply profileIsEmpty_profEmpty in Hempty. unfold buildProfile in Hempty.
  apply buildProfile_empty in Hempty as [_ Hall]. apply (Hall id).
  - unfold w'. rewrite (StoreFacts.toggleFav_set true id (Some it) w Hid).
    unfold toggled. rewrite decide_False by done. set_solver.
  - by apply StoreFacts.toggleFav_learns.
Qed.

Lemma toggleFav_profile_witness :
  let w' := (toggleFav true true "b" (Some (Sample.short "b" ["P"]))
               Sample.noFavorites).2 in
  profileIsEmpty (buildProfile w' (loadFavSet w')) = false.
Proof.
  apply toggleFav_profile; [reflexivity|discriminate| |].
  - cbn. set_solver.
  - intros (Ht & _). vm_compute in Ht. by apply Forall_cons in Ht as [? _].
Defined.

(** X26. An item that shares no tag, performer, maker, series or label
    with the profile scores exactly zero. *)
Theorem scoreItem_disjoint meta prof :
  (∀ t, t ∈ tags meta → prof_tags prof !! t = None) →
  (∀ a, a ∈ actresses meta → prof_actresses prof !! a = None) →
  prof_maker prof !! maker meta = None →
  prof_series prof !! series meta = None →
  prof_label prof !! label meta = None →
  scoreItem meta prof = 0%float.
Proof.
  intros Ht Ha Hm Hs Hl. unfold scoreItem. cbn zeta.
  assert (∀ (m : gmap string float) c l,
            (0 + 0 * c = 0)%float →
            (∀ k, k ∈ l → m !! k = None) →
            foldl (λ s k, s + orZero (m !! k) * c)%float 0%float l = 0%float)
    as Hfold.
  { intros m c l Hc. induction l as [|k l IH]; intros Hk; [done|]. cbn.
    rewrite (Hk k) by (by left). cbn. rewrite Hc. apply IH.
    intros k' Hk'. apply Hk. by right. }
  rewrite (Hfold (prof_tags prof) 0.8%float (tags meta) eq_refl Ht).
  rewrite (Hfold (prof_actresses prof) 2.2%float (actresses meta) eq_refl Ha).
  rewrite Hm, Hs, Hl. cbn.
  by destruct (nonempty (maker meta)), (nonempty (series meta)),
    (nonempty (label meta)).
Qed.

Lemma scoreItem_disjoint_witness :
  scoreItem (readItemMeta (Sample.short "a" ["Q"]))
            (buildProfile Sample.morning (loadFavSet Sample.morning))
    = 0%float.
Proof.
  apply scoreItem_disjoint.
  - intros t Ht. vm_compute in Ht. by apply list_elem_of_singleton in Ht as ->.
  - intros a Ha. vm_compute in Ha. by apply list_elem_of_singleton in Ha as ->.
  - reflexivity.
  - reflexivity.
  - reflexivity.
Defined.

(** *** The ranking on any input *)

Lemma distinct_ids_length (items out : list ShortItem) :
  (∀ x, x ∈ out → x ∈ items) → NoDup (data_id <$> out) →
  data_id <$> out ⊆+ data_id <$> items.
Proof.
  intros Hsub Hnd. apply NoDup_submseteq; [done|].
  intros i (x & -> & Hx)%list_elem_of_fmap. apply list_elem_of_fmap_2. auto.
Qed.

Lemma covers_full (items out : list ShortItem) :
  (∀ x, x ∈ out → x ∈ items) → NoDup (data_id <$> out) →
  (length items ≤ length out)%nat ∨
    (∀ x, x ∈ items → data_id x ∈ data_id <$> out) →
  covers items out.
Proof.
  intros Hsub Hnd Hfull.
  pose proof (distinct_ids_length items out Hsub Hnd) as Hms.
  pose proof (submseteq_length _ _ Hms) as Hlen. rewrite !length_fmap in Hlen.
  split_and!; [done| |done].
  destruct Hfull as [Hge|Hcover]; [|done].
  intros x Hx.
  rewrite (submseteq_length_Permutation _ _ Hms)
    by (rewrite !length_fmap; lia).
  by apply list_elem_of_fmap_2.
Qed.

Lemma interleave_covers items n ratio related random ri qi out used g :
  related ≡ₚ items → random ≡ₚ items → n = length items →
  loopInv items related random ri qi out used →
  covers items (interleave n ratio related random ri qi out used g) ∧
  NoDup (data_id <$> interleave n ratio related random ri qi out used g).
Proof.
  intros Hrel Hrnd Hn.
  funelim (interleave n ratio related random ri qi out used g);
    intros Hinv.
  - destruct Hinv. split; [|done]. apply covers_full; auto. left. lia.
  - match goal with H : related !! ri = Some _ |- _ => rename H into Hc end.
    assert (cand ∈ items) as Hin
      by (rewrite <-Hrel; by eapply list_elem_of_lookup_2).
    destruct (decide (data_id cand ∈ used)) as [Hu|Hu].
    + match goal with IH : data_id cand ∈ used → _ |- _ => apply IH; auto end.
      by eapply ShortsFacts.loopInv_skip_related.
    + match goal with IH : data_id cand ∉ used → _ |- _ => apply IH; auto end.
      eapply ShortsFacts.loopInv_push; eauto.
      intros x. rewrite (take_S_r _ _ _ Hc), elem_of_app, list_elem_of_singleton.
      tauto.
  - match goal with H : pickRelated _ _ _ _ _ _ = (true, _) |- _ =>
      pose proof (ShortsFacts.pickRelated_true ratio related random ri qi g)
        as Hlt;
      rewrite H in Hlt; specialize (Hlt eq_refl) end.
    match goal with H : related !! ri = None |- _ =>
      pose proof (proj1 (lookup_ge_None _ _) H); lia end.
  - match goal with H : random !! qi = Some _ |- _ => rename H into Hc end.
    assert (cand ∈ items) as Hin
      by (rewrite <-Hrnd; by eapply list_elem_of_lookup_2).
    destruct (decide (data_id cand ∈ used)) as [Hu|Hu].
    + match goal with IH : data_id cand ∈ used → _ |- _ => apply IH; auto end.
      by eapply ShortsFacts.loopInv_skip_random.
    + match goal with IH : data_id cand ∉ used → _ |- _ => apply IH; auto end.
      eapply ShortsFacts.loopInv_push; eauto.
      intros x. rewrite (take_S_r _ _ _ Hc), elem_of_app, list_elem_of_singleton.
      tauto.
  - match goal with H : random !! qi = None |- _ =>
      pose proof (proj1 (lookup_ge_None _ _) H) as Hq end.
    match goal with H : pickRelated _ _ _ _ _ _ = (false, _) |- _ =>
      pose proof (ShortsFacts.pickRelated_false ratio related random ri qi g)
        as Hr;
      rewrite H in Hr; specialize (Hr eq_refl Hq) end.
    destruct Hinv as [Hsub Hnd Hused Hrelv _].
    split; [|done]. apply covers_full; auto. right.
    intros x Hx. apply Hused, Hrelv.
    rewrite take_ge by done. by rewrite Hrel.
Qed.

(** X27. Whatever the input, ids repeated or not, every item
    [recommendOrder] returns is an item of the input, every id of the
    input is the id of an item returned, and the list returned is no
    longer than the input; when the ranking is used (some favorite has
    features that count), no id is returned twice. *)
Theorem recommendOrder_any_input w items :
  covers items (recommendOrder w items) ∧
  (loadFavSet w ≠ [] →
   profileIsEmpty (buildProfile w (loadFavSet w)) = false →
   NoDup (data_id <$> recommendOrder w items)).
Proof.
  assert (∀ out, out ≡ₚ items → covers items out) as Hperm.
  { intros out Hp. split_and!.
    - intros x. by rewrite Hp.
    - intros x Hx. rewrite Hp. by apply list_elem_of_fmap_2.
    - by rewrite Hp. }
  unfold recommendOrder. cbn zeta.
  case_decide as Hcount.
  { split; [apply Hperm, ShortsFacts.shuffleInPlace_Permutation_items|].
    intros Hne. by destruct (loadFavSet w). }
  destruct (profileIsEmpty _).
  { split; [apply Hperm, ShortsFacts.shuffleInPlace_Permutation_items|done]. }
  set (favSet := loadFavSet w). set (prof := buildProfile w favSet).
  set (g := mulberry32 _).
  pose proof (ShortsFacts.mapRand_scoreOne_fst favSet prof items g) as Hfst.
  destruct (mapRand _ items g) as [scored g1]. cbn [fst] in Hfst.
  pose proof (ShortsFacts.shuffleInPlace_Permutation_items items g1) as Hsh.
  destruct (shuffleInPlace items g1) as [random g2]. cbn [fst] in Hsh.
  destruct (interleave_covers items (length items) (relRatio (length favSet))
              (sortBy higherFirst scored).*1 random 0 0 [] ∅ g2)
    as [Hcov Hnd]; auto using ShortsFacts.loopInv_initial.
  by rewrite ShortsFacts.sortBy_Permutation, Hfst.
Qed.

End RankFacts.

(** ** The navigation links *)

Module NavFacts.
Import ShortsNav.

Lemma uniqLoop_spec links : ∀ seen uniq,
  (∀ h, h ∈ seen ↔ h ∈ href <$> uniq) → NoDup (href <$> uniq) →
  ∃ rest,
    uniqLoop links seen uniq = uniq ++ rest ∧
    NoDup (href <$> uniq ++ rest) ∧
    (∀ l, l ∈ links → href l ∈ href <$> uniq ++ rest) ∧
    ∀ l, l ∈ rest →
      ∃ i, links !! i = Some l ∧
           ∀ j l', (j < i)%nat → links !! j = Some l' → href l' ≠ href l.
Proof.
  induction links as [|l0 links IH]; intros seen uniq Hseen Hnd.
  - exists []. rewrite app_nil_r. split_and!; [done|done|..].
    + by intros ? ?%elem_of_nil.
    + by intros ? ?%elem_of_nil.
  - cbn [uniqLoop]. case_decide as Hin.
    + destruct (IH seen uniq Hseen Hnd) as (rest & -> & Hnd' & Hall & Hfirst).
      exists rest. split_and!; [done|done|..].
      * intros l [->|Hl]%elem_of_cons; [|by apply Hall].
        rewrite fmap_app, elem_of_app. left. by apply Hseen.
      * intros l Hl. destruct (Hfirst l Hl) as (i & Hi & Hbefore).
        exists (S i). split; [done|]. intros [|j] l' Hj Hl'.
        -- cbn in Hl'. simplify_eq. intros Heq.
           rewrite fmap_app in Hnd'. apply NoDup_app in Hnd' as (_ & Hd & _).
           apply (Hd (href l)); [rewrite <- Heq; by apply Hseen|].
           by apply list_elem_of_fmap_2.
        -- apply (Hbefore j); [lia|done].
    + destruct (IH ({[href l0]} ∪ seen) (uniq ++ [l0]))
        as (rest & -> & Hnd' & Hall & Hfirst).
      { intros h. rewrite fmap_app, elem_of_app, elem_of_union, Hseen. cbn.
        set_solver. }
      { rewrite fmap_app. apply NoDup_app. split_and!; [done| |apply NoDup_singleton].
        intros h Hh Hh'. cbn in Hh'. apply list_elem_of_singleton in Hh' as ->.
        by apply Hin, Hseen. }
      exists (l0 :: rest). rewrite <- (assoc_L (++)) in *. cbn in *.
      split_and!; [done|done|..].
      * intros l [->|Hl]%elem_of_cons; [|by apply Hall].
        rewrite fmap_app, elem_of_app. right. cbn. by left.
      * intros l [->|Hl]%elem_of_cons.
        -- exists 0%nat. split; [done|]. intros j l' Hj. lia.
        -- destruct (Hfirst l Hl) as (i & Hi & Hbefore).
           exists (S i). split; [done|]. intros [|j] l' Hj Hl'.
           ++ cbn in Hl'. simplify_eq. intros Heq.
              rewrite fmap_app in Hnd'. apply NoDup_app in Hnd' as (_ & _ & Hd).
              cbn in Hd. apply NoDup_cons in Hd as [Hd _]. apply Hd.
              rewrite Heq. by apply list_elem_of_fmap_2.
           ++ apply (Hbefore j); [lia|done].
Qed.

(** X28. The links [buildLinksFromHeader] returns have pairwise distinct
    [href]s and non-empty [href] and text; every link read off the header
    has its [href] among them; and each link returned is the first link
    of the header with its [href], the later ones being dropped. *)
Theorem buildLinksFromHeader_first anchors :
  NoDup (href <$> buildLinksFromHeader anchors) ∧
  (∀ l, l ∈ headerLinks anchors →
        href l ∈ href <$> buildLinksFromHeader anchors) ∧
  ∀ l, l ∈ buildLinksFromHeader anchors →
    href l ≠ "" ∧ text l ≠ "" ∧
    ∃ i, headerLinks anchors !! i = Some l ∧
         ∀ j l', (j < i)%nat → headerLinks anchors !! j = Some l' →
                 href l' ≠ href l.
Proof.
  unfold buildLinksFromHeader.
  destruct (uniqLoop_spec (headerLinks anchors) ∅ [])
    as (rest & -> & Hnd & Hall & Hfirst); [set_solver|constructor|].
  cbn in *. split_and!; [done|done|].
  intros l Hl. destruct (Hfirst l Hl) as (i & Hi & Hbefore).
  assert (l ∈ headerLinks anchors) as Hin by (by eapply list_elem_of_lookup_2).
  unfold headerLinks in Hin.
  apply list_elem_of_In, filter_In in Hin as [_ Hne].
  apply andb_prop in Hne as [H1 H2]. unfold nonempty in *.
  split_and!.
  - by destruct (String.eqb_spec (href l) "").
  - by destruct (String.eqb_spec (text l) "").
  - eauto.
Qed.

End NavFacts.

(** ** The shuffle and the generator *)

Module ShuffleFacts.
Import Num Rng.

(** X29. The index [Math.floor(rand() * (i + 1))] drawn by
    [shuffleInPlace] is at most [i], whatever the state of the generator:
    the rounding of the product to a double never lifts it to [i + 1].
    So in an array shorter than 2^32 both elements of every swap
    exist. *)
Theorem drawn_index_in_range {A} (arr : list A) (g : gen) (i : nat) :
  (i < length arr)%nat → Z.of_nat (length arr) < two32 →
  (pick (next g).1 i ≤ i)%nat ∧
  is_Some (arr !! i) ∧ is_Some (arr !! pick (next g).1 i).
Proof.
  intros Hi Hlen.
  pose proof (RngFacts.next_range g) as Hr.
  assert (pick (next g).1 i ≤ i)%nat as Hle
    by (apply RngFacts.pick_le; [done|lia]).
  split; [done|]. split; apply lookup_lt_is_Some; lia.
Qed.

Lemma drawn_index_in_range_witness :
  (pick (next (mulberry32 (hash32 "2026-11-03|w1"))).1 4 ≤ 4)%nat ∧
  is_Some ([1; 2; 3; 4; 5] !! 4%nat) ∧
  is_Some ([1; 2; 3; 4; 5]
             !! pick (next (mulberry32 (hash32 "2026-11-03|w1"))).1 4).
Proof.
  apply (drawn_index_in_range [1; 2; 3; 4; 5]); [cbn; lia|].
  cbn. unfold two32. lia.
Defined.

(** X30. [shuffleInPlace] calls [rand] once for every element but the
    first and not more: it leaves the generator in the state reached by
    [length - 1] calls, whatever the elements are, and returns an array
    of the same length. *)
Theorem shuffleInPlace_draws_count {A} (arr : list A) (g : gen) :
  (shuffleInPlace arr g).2
    = Nat.iter (length arr - 1) (λ g, (next g).2) g ∧
  length (shuffleInPlace arr g).1 = length arr.
Proof.
  split; [|by rewrite RngFacts.shuffleInPlace_Permutation].
  unfold shuffleInPlace. generalize (length arr - 1)%nat as i.
  intros i. revert arr g. induction i as [|i IH]; intros arr g; [done|].
  cbn [shuffleFrom]. unfold mbind, rand_bind, rand.
  destruct (next g) as [r g'] eqn:Hn. rewrite IH.
  rewrite Nat.iter_succ_r. by rewrite Hn.
Qed.

End ShuffleFacts.
